(** * Forward-port determination engine of chisel-releases

    Shallow embedding of [.github/scripts/forward-port-missing/forward_port_missing.py]:
    releases, pull requests, the pairwise [Comparison], the comparison engine
    [_get_comparisons], the aggregation [_get_grouped_comparisons], the partition
    [_group_prs_by_ubuntu_release], the delta extraction [_group_new_slices_by_pr]
    and the verdict [forward_porting_status].

    Modelling choices:
    - [frozenset[str]] / [set[str]] of slice or package names is [gset string].
    - Python exceptions are the constructors of [exc]; fallible code lives in the
      [result] monad.
    - The global [_VERSION_TO_CODENAME] dict is passed explicitly as a
      [gmap string string] (it is only looked up, never iterated).
    - Dicts keyed by [PR] or [UbuntuRelease] that the code iterates are
      association lists in insertion order ([pydict]); sets of [PR] or of
      [Comparison] are duplicate-free lists extended by [set_add].
    - Logging is a no-op. *)

From Stdlib Require Import ZArith Ascii String Lia.
From stdpp Require Import base list gmap sets strings sorting.

Open Scope string_scope.

(** ** Exceptions and the result monad *)

Inductive exc := AssertionError | ValueError.

Inductive result (A : Type) := Ok (a : A) | Err (e : exc).
Arguments Ok {A} a.
Arguments Err {A} e.

Global Instance result_ret : MRet result := fun A a => Ok a.
Global Instance result_bind : MBind result :=
  fun A B (k : A -> result B) (m : result A) =>
    match m with Ok a => k a | Err e => Err e end.

(** [for x in xs: acc = body(acc, x)], stopping at the first exception. *)
Fixpoint foldM {A B} (f : B -> A -> result B) (xs : list A) (acc : B) : result B :=
  match xs with
  | [] => Ok acc
  | x :: xs' => match f acc x with Ok acc' => foldM f xs' acc' | Err e => Err e end
  end.

(** [[x for x in xs if p(x)]] with a predicate that may raise. *)
Fixpoint filterM {A} (p : A -> result bool) (xs : list A) : result (list A) :=
  match xs with
  | [] => Ok []
  | x :: xs' =>
      match p x with
      | Err e => Err e
      | Ok b => match filterM p xs' with
                | Err e => Err e
                | Ok ys => Ok (if b then x :: ys else ys)
                end
      end
  end.

(** ** Python dicts and sets of hashable values *)

Section PyDict.
Context {K V : Type} `{EqDecision K}.

Definition pydict := list (K * V).

Fixpoint dict_get (k : K) (d : pydict) : option V :=
  match d with
  | [] => None
  | (k', v) :: d' => if decide (k = k') then Some v else dict_get k d'
  end.

(** [d[k] = v]: overwrite in place when present, append otherwise. *)
Fixpoint dict_set (k : K) (v : V) (d : pydict) : pydict :=
  match d with
  | [] => [(k, v)]
  | (k', v') :: d' => if decide (k = k') then (k', v) :: d' else (k', v') :: dict_set k v d'
  end.

Definition dict_get_default (k : K) (dflt : V) (d : pydict) : V :=
  match dict_get k d with Some v => v | None => dflt end.

Definition dict_keys (d : pydict) : list K := map fst d.
End PyDict.
Arguments pydict : clear implicits.

Definition set_add {A} `{EqDecision A} (x : A) (s : list A) : list A :=
  if decide (x ∈ s) then s else s ++ [x].

(** ** Version strings *)

Definition digit_val (c : ascii) : option Z :=
  let n := nat_of_ascii c in
  if (48 <=? n)%nat && (n <=? 57)%nat then Some (Z.of_nat (n - 48)) else None.

(** Python's [int(s)] in base 10, as [PyLong_FromUnicodeObject] runs it on a
    Latin-1 string.  The two non-ASCII white-space characters (0x85, 0xA0) are
    first turned into a blank and every other non-ASCII character into a
    character no digit matches; [PyLong_FromString] then skips the ASCII white
    space (tab, line feed, 0x0B, 0x0C, carriage return, blank), reads an
    optional sign, then digits with single underscores between them, skips
    white space again and must have reached the end of the string.  More than
    [sys.get_int_max_str_digits()] digits (4300 by default) raise. *)
Definition int_space (c : ascii) : bool :=
  let n := nat_of_ascii c in
  ((9 <=? n)%nat && (n <=? 13)%nat) || (n =? 32)%nat || (n =? 133)%nat || (n =? 160)%nat.

Fixpoint skip_int_space (s : string) : string :=
  match s with
  | EmptyString => EmptyString
  | String c s' => if int_space c then skip_int_space s' else s
  end.

(** The scanning loop over digits and underscores: the value read so far, the
    number of digits, whether the last character read was an underscore, and
    the rest of the string; a doubled underscore raises. *)
Fixpoint int_scan (s : string) (prev_us : bool) (acc : Z) (nd : nat) : option (Z * nat * bool * string) :=
  match s with
  | EmptyString => Some (acc, nd, prev_us, EmptyString)
  | String c s' =>
      match digit_val c with
      | Some d => int_scan s' false (acc * 10 + d) (S nd)
      | None =>
          if Ascii.eqb c "_" then (if prev_us then None else int_scan s' true acc nd)
          else Some (acc, nd, prev_us, s)
      end
  end.

Definition int_max_str_digits : nat := 4300.

Definition py_int (s : string) : result Z :=
  let s1 := skip_int_space s in
  let '(neg, s2) := match s1 with
                    | String c r => if Ascii.eqb c "+" then (false, r)
                                    else if Ascii.eqb c "-" then (true, r) else (false, s1)
                    | EmptyString => (false, s1)
                    end in
  match s2 with
  | String c _ => if Ascii.eqb c "_" then Err ValueError else
      match int_scan s2 false 0 0 with
      | None => Err ValueError
      | Some (v, nd, last_us, rest) =>
          if last_us || (nd =? 0)%nat then Err ValueError
          else match skip_int_space rest with
               | EmptyString =>
                   if (int_max_str_digits <? nd)%nat then Err ValueError
                   else Ok (if neg then (- v)%Z else v)
               | String _ _ => Err ValueError
               end
      end
  | EmptyString => Err ValueError
  end.

(** [s.split(sep)] *)
Fixpoint split_on (sep : ascii) (s : string) : list string :=
  match s with
  | EmptyString => [EmptyString]
  | String c s' =>
      if Ascii.eqb c sep then EmptyString :: split_on sep s'
      else match split_on sep s' with
           | w :: ws => String c w :: ws
           | [] => [String c EmptyString]
           end
  end.

(** [s.split(sep, 1)[1]]: raises [IndexError] when [sep] does not occur; only
    used after the "ubuntu-" prefix has been asserted. *)
Fixpoint after_first (sep : ascii) (s : string) : option string :=
  match s with
  | EmptyString => None
  | String c s' => if Ascii.eqb c sep then Some s' else after_first sep s'
  end.

(** ** UbuntuRelease *)

Record UbuntuRelease := mkRelease { version : string; codename : string }.

Global Instance UbuntuRelease_eq_dec : EqDecision UbuntuRelease.
Proof. solve_decision. Defined.

Definition version_tuple (r : UbuntuRelease) : result (Z * Z) :=
  match split_on "." (version r) with
  | [year; month] => y ← py_int year; m ← py_int month; Ok (y, m)
  | _ => Err ValueError
  end.

(** Python's ordering of [tuple[int, int]]. *)
Definition tuple_lt (a b : Z * Z) : bool :=
  (a.1 <? b.1)%Z || ((a.1 =? b.1)%Z && (a.2 <? b.2)%Z).

Definition release_lt (a b : UbuntuRelease) : result bool :=
  ta ← version_tuple a; tb ← version_tuple b; Ok (tuple_lt ta tb).

(** [functools.total_ordering] derives [>] and [>=] from [__lt__] and the
    dataclass [__eq__]:  [a > b] is [not a < b and a != b],  [a >= b] is
    [not a < b]. *)
Definition release_gt (a b : UbuntuRelease) : result bool :=
  lt ← release_lt a b; Ok (negb lt && bool_decide (a <> b)).

Definition release_ge (a b : UbuntuRelease) : result bool :=
  lt ← release_lt a b; Ok (negb lt).

Definition ubuntu_prefix := "ubuntu-".

(** [UbuntuRelease.from_branch_name]; [vtc] is [_VERSION_TO_CODENAME]. *)
Definition from_branch_name (vtc : gmap string string) (branch : string) : result UbuntuRelease :=
  if String.prefix ubuntu_prefix branch then
    match after_first "-" branch with
    | None => Err AssertionError (* unreachable: the prefix contains "-" *)
    | Some v =>
        match vtc !! v with
        | None => Err ValueError
        | Some cn => Ok (mkRelease v cn)
        end
    end
  else Err AssertionError.

(** ** Commit and PR *)

Record Commit := mkCommit { ref : string; repo_name : string; repo_owner : string;
                            repo_url : string; sha : string }.

Global Instance Commit_eq_dec : EqDecision Commit.
Proof. solve_decision. Defined.

Record PR := mkPR { number : Z; title : string; user : string; head : Commit;
                    base : Commit; label : bool; url : string }.

Global Instance PR_eq_dec : EqDecision PR.
Proof. solve_decision. Defined.

(** [PR.ubuntu_release] *)
Definition pr_ubuntu_release (vtc : gmap string string) (pr : PR) : result UbuntuRelease :=
  from_branch_name vtc (ref (base pr)).

(** ** Comparison *)

Record Comparison := mkComparison {
  cmp_pr : PR;
  slices : gset string;
  pr_future : PR;
  slices_future : gset string;
  discontinued_slices : gset string }.

Global Instance Comparison_eq_dec : EqDecision Comparison.
Proof. solve_decision. Defined.

(** [Comparison(pr=..., ...)] including [__post_init__]. *)
Definition mk_comparison (vtc : gmap string string) (pr : PR) (sl : gset string)
    (prf : PR) (slf : gset string) (disc : gset string) : result Comparison :=
  r ← pr_ubuntu_release vtc pr;
  rf ← pr_ubuntu_release vtc prf;
  release_ge r rf ≫= fun (ge : bool) =>
  if ge then Err ValueError else Ok (mkComparison pr sl prf slf disc).

(** [Comparison.future_ubuntu_release] *)
Definition future_ubuntu_release (vtc : gmap string string) (c : Comparison) : result UbuntuRelease :=
  pr_ubuntu_release vtc (pr_future c).

(** [Comparison.missing_slices] *)
Definition missing_slices (c : Comparison) : gset string :=
  let missing := slices c ∖ slices_future c in
  if decide (missing = ∅) then ∅
  else if decide (discontinued_slices c = ∅) then missing
  else missing ∖ discontinued_slices c.

(** [Comparison.is_forward_ported] *)
Definition is_forward_ported (c : Comparison) : bool :=
  bool_decide (missing_slices c = ∅).

(** [forward_porting_status] *)
Definition forward_porting_status (sl : gset string)
    (by_future : pydict UbuntuRelease (list Comparison)) : bool :=
  if decide (sl = ∅) then true
  else forallb (fun (kv : UbuntuRelease * list Comparison) => existsb is_forward_ported kv.2) by_future.

(** ** Delta extraction: [_group_new_slices_by_pr] *)

(** [sorted(prs)]: [PR.__lt__] compares numbers; Python's sort is stable, as
    is stdpp's [merge_sort]. *)
Definition pr_le (p q : PR) : Prop := (number p <= number q)%Z.

Global Instance pr_le_dec : RelDecision pr_le.
Proof. intros p q. unfold pr_le. apply _. Defined.

Definition sort_prs (prs : list PR) : list PR := merge_sort pr_le prs.

Definition same_keys {K V W} `{EqDecision K} (a : pydict K V) (b : pydict K W) : bool :=
  forallb (fun k => bool_decide (k ∈ dict_keys b)) (dict_keys a)
  && forallb (fun k => bool_decide (k ∈ dict_keys a)) (dict_keys b).

Definition group_new_slices_by_pr (slices_in_head_by_pr slices_in_base_by_pr : pydict PR (gset string))
    : result (pydict PR (gset string)) :=
  let prs := remove_dups (dict_keys slices_in_head_by_pr) in
  if negb (same_keys slices_in_base_by_pr slices_in_head_by_pr) then Err ValueError
  else Ok (foldl (fun new_slices_by_pr pr =>
                    let slices_in_head := dict_get_default pr ∅ slices_in_head_by_pr in
                    let slices_in_base := dict_get_default pr ∅ slices_in_base_by_pr in
                    let new_slices := slices_in_head ∖ slices_in_base in
                    if decide (new_slices = ∅) then new_slices_by_pr
                    else dict_set pr new_slices new_slices_by_pr)
                 [] (sort_prs prs)).

(** ** Partition: [_group_prs_by_ubuntu_release] *)

Definition setdefault_empty {K V} `{EqDecision K} (k : K) (d : pydict K (list V)) : pydict K (list V) :=
  match dict_get k d with Some _ => d | None => dict_set k [] d end.

Definition group_prs_by_ubuntu_release (vtc : gmap string string) (prs : list PR)
    (ubuntu_releases : list UbuntuRelease) : result (pydict UbuntuRelease (list PR)) :=
  let d0 := foldl (fun d r => dict_set r [] d) [] ubuntu_releases in
  d ← foldM (fun d pr =>
         r ← pr_ubuntu_release vtc pr;
         match dict_get r d with
         | None => Ok d (* warning: unsupported Ubuntu release, skipped *)
         | Some s => Ok (dict_set r (set_add pr s) d)
         end) (sort_prs prs) d0;
  Ok (foldl (fun d r => setdefault_empty r d) d ubuntu_releases).

(** ** Comparison engine: [_get_comparisons] *)

Section Engine.
Variable vtc : gmap string string.
Variable prs_by_ubuntu_release : pydict UbuntuRelease (list PR).
Variable new_slices_by_pr : pydict PR (gset string).
Variable packages_by_release : pydict UbuntuRelease (gset string).

Definition future_releases_of (ubuntu_release : UbuntuRelease) : result (list UbuntuRelease) :=
  filterM (fun r => release_gt r ubuntu_release) (dict_keys prs_by_ubuntu_release).

(** [for pr_future in prs_into_future_release: ...] *)
Definition compare_with_future (pr : PR) (new_slices : gset string) (future_release : UbuntuRelease)
    (comparisons : list Comparison) (pr_future : PR) : result (list Comparison) :=
  let new_slices_in_future := dict_get_default pr_future ∅ new_slices_by_pr in
  let discontinued := new_slices ∖ dict_get_default future_release ∅ packages_by_release in
  c ← mk_comparison vtc pr new_slices pr_future new_slices_in_future discontinued;
  Ok (set_add c comparisons).

(** [for future_release in future_releases: ...] *)
Definition compare_with_release (pr : PR) (new_slices : gset string)
    (comparisons : list Comparison) (future_release : UbuntuRelease) : result (list Comparison) :=
  let prs_into_future_release := dict_get_default future_release [] prs_by_ubuntu_release in
  match prs_into_future_release with
  | [] => Ok comparisons (* no PRs into this future release *)
  | _ => foldM (compare_with_future pr new_slices future_release) prs_into_future_release comparisons
  end.

(** [for pr in prs_in_release: ...] *)
Definition compare_pr (future_releases : list UbuntuRelease)
    (comparisons : list Comparison) (pr : PR) : result (list Comparison) :=
  let new_slices := dict_get_default pr ∅ new_slices_by_pr in
  foldM (compare_with_release pr new_slices) future_releases comparisons.

(** [for ubuntu_release, prs_in_release in prs_by_ubuntu_release.items(): ...] *)
Definition compare_release (comparisons : list Comparison)
    (entry : UbuntuRelease * list PR) : result (list Comparison) :=
  future_releases ← future_releases_of entry.1;
  match future_releases with
  | [] => Ok comparisons
  | _ => foldM (compare_pr future_releases) entry.2 comparisons
  end.

(** The first loop of the source collects every PR into an unused set. *)
Definition get_comparisons : result (list Comparison) :=
  foldM compare_release prs_by_ubuntu_release [].
End Engine.

(** ** Aggregator: [_get_grouped_comparisons] *)

Fixpoint mapR {A B} (f : A -> result B) (xs : list A) : result (list B) :=
  match xs with
  | [] => Ok []
  | x :: xs' => match f x with
                | Err e => Err e
                | Ok y => match mapR f xs' with Err e => Err e | Ok ys => Ok (y :: ys) end
                end
  end.

Definition grouped := pydict PR (pydict UbuntuRelease (list Comparison)).

Section Aggregator.
Variable vtc : gmap string string.
Variable prs_by_ubuntu_release : pydict UbuntuRelease (list PR).
Variable new_slices_by_pr : pydict PR (gset string).
Variable packages_by_release : pydict UbuntuRelease (gset string).

(** First loop: [grouped_comparisons[pr][future_release].add(comparison)]. *)
Definition group_one (g : grouped) (c : Comparison) : result grouped :=
  let pr := cmp_pr c in
  future_release ← future_ubuntu_release vtc c;
  let g := setdefault_empty pr g in
  let inner := setdefault_empty future_release (dict_get_default pr [] g) in
  let inner := dict_set future_release (set_add c (dict_get_default future_release [] inner)) inner in
  Ok (dict_set pr inner g).

(** Second loop: every PR of the partition gets a key. *)
Definition add_missing_prs (g : grouped) : grouped :=
  foldl (fun g (entry : UbuntuRelease * list PR) => foldl (fun g pr => setdefault_empty pr g) g entry.2)
        g prs_by_ubuntu_release.

(** Third loop: every future release gets a key under each PR. *)
Definition fill_future (entry : PR * pydict UbuntuRelease (list Comparison))
    : result (PR * pydict UbuntuRelease (list Comparison)) :=
  ubuntu_release ← pr_ubuntu_release vtc entry.1;
  future_releases ← future_releases_of prs_by_ubuntu_release ubuntu_release;
  Ok (entry.1, foldl (fun inner r => setdefault_empty r inner) entry.2 future_releases).

Definition get_grouped_comparisons : result grouped :=
  comparisons ← get_comparisons vtc prs_by_ubuntu_release new_slices_by_pr packages_by_release;
  g ← foldM group_one comparisons [];
  mapR fill_future (add_missing_prs g).
End Aggregator.

Definition entry_le (e1 e2 : PR * pydict UbuntuRelease (list Comparison)) : Prop := pr_le e1.1 e2.1.

Global Instance entry_le_dec : RelDecision entry_le.
Proof. intros e1 e2. unfold entry_le. apply _. Defined.

(** ** The pipeline of [main], down to the [forward_ported] field of
    [format_forward_port_json]; [ubuntu_releases] is what [main] passes,
    [sorted(packages_by_release.keys())]. *)

Definition forward_port_verdicts (vtc : gmap string string) (ubuntu_releases : list UbuntuRelease)
    (prs : list PR) (slices_in_head_by_pr slices_in_base_by_pr : pydict PR (gset string))
    (packages_by_release : pydict UbuntuRelease (gset string)) : result (list (Z * bool)) :=
  prs_by_ubuntu_release ← group_prs_by_ubuntu_release vtc prs ubuntu_releases;
  new_slices_by_pr ← group_new_slices_by_pr slices_in_head_by_pr slices_in_base_by_pr;
  g ← get_grouped_comparisons vtc prs_by_ubuntu_release new_slices_by_pr packages_by_release;
  let sorted_g := merge_sort entry_le g in
  Ok (map (fun e : PR * pydict UbuntuRelease (list Comparison) =>
             (number e.1, forward_porting_status (dict_get_default e.1 ∅ new_slices_by_pr) e.2)) sorted_g).

(** ** Regular expressions: the fragment of Python's [re] used by
    [UbuntuRelease.from_distro_info_line] *)

(** A regular expression over ASCII characters: a literal character, a
    character class repeated between [lo] and [hi] times ([None]: unbounded),
    a sequence, an optional part [(...)?], and a capturing group. *)
Inductive regex :=
  | RChar (c : ascii)
  | RClass (p : ascii -> bool) (lo : nat) (hi : option nat)
  | RSeq (r1 r2 : regex)
  | ROpt (r : regex)
  | RGroup (n : nat) (r : regex).

(** Captured groups: group number to captured text. *)
Definition captures := list (nat * list ascii).

(** The longest prefix of [s] in class [p], of at most [hi] characters. *)
Fixpoint class_run (p : ascii -> bool) (hi : option nat) (s : list ascii) : nat :=
  match s with
  | [] => 0
  | c :: s' =>
      if p c then
        match hi with
        | None => S (class_run p None s')
        | Some 0 => 0
        | Some (S h) => S (class_run p (Some h) s')
        end
      else 0
  end.

Section Matcher.
Context {X : Type}.

(** Greedy repetition backtracks from the longest run down to [lo]. *)
Fixpoint try_down (n lo : nat) (s : list ascii) (caps : captures)
    (k : list ascii -> captures -> option X) : option X :=
  if bool_decide (n < lo) then None
  else match k (drop n s) caps with
       | Some x => Some x
       | None => match n with 0 => None | S n' => try_down n' lo s caps k end
       end.

(** Backtracking matcher in continuation-passing style: the first success in
    the order Python's engine tries the alternatives (greedy first). *)
Fixpoint rmatch (r : regex) (s : list ascii) (caps : captures)
    (k : list ascii -> captures -> option X) : option X :=
  match r with
  | RChar c => match s with c' :: s' => if Ascii.eqb c c' then k s' caps else None | [] => None end
  | RClass p lo hi => try_down (class_run p hi s) lo s caps k
  | RSeq r1 r2 => rmatch r1 s caps (fun s' caps' => rmatch r2 s' caps' k)
  | ROpt r => match rmatch r s caps k with Some x => Some x | None => k s caps end
  | RGroup n r => rmatch r s caps (fun s' caps' => k s' ((n, take (length s - length s') s) :: caps'))
  end.
End Matcher.

(** [re.match(pattern, line)]: anchored at the start, the rest of the line is
    not examined; the result is the groups of the first match. *)
Definition re_match (r : regex) (line : string) : option captures :=
  rmatch r (list_ascii_of_string line) [] (fun _ caps => Some caps).

(** [match.group(n)]: the most recent capture of group [n]. *)
Definition group (caps : captures) (n : nat) : string :=
  match dict_get n caps with Some w => string_of_list_ascii w | None => "" end.

Fixpoint rlit (s : string) (r : regex) : regex :=
  match s with EmptyString => r | String c s' => RSeq (RChar c) (rlit s' r) end.

Definition is_digit (c : ascii) : bool := if digit_val c then true else false.

Definition is_letter_or_space (c : ascii) : bool :=
  let n := nat_of_ascii c in
  ((65 <=? n) && (n <=? 90))%nat || ((97 <=? n) && (n <=? 122))%nat || (n =? 32)%nat.

Definition dquote : ascii := "034".

(** The pattern [Ubuntu (\d{1,2}\.\d{2})( LTS)? Q([A-Za-z ]+)Q] of
    [from_distro_info_line], where Q is a double quote, and the bodies of its
    groups 1, 2 and 3 ([\d] on ASCII input is [[0-9]]). *)
Definition distro_version_re : regex :=
  RSeq (RClass is_digit 1 (Some 2)) (RSeq (RChar ".") (RClass is_digit 2 (Some 2))).

Definition distro_lts_re : regex := rlit " LT" (RChar "S").

Definition distro_codename_re : regex := RClass is_letter_or_space 1 None.

Definition distro_info_re : regex :=
  rlit "Ubuntu "
    (RSeq (RGroup 1 distro_version_re)
    (RSeq (ROpt (RGroup 2 distro_lts_re))
    (RSeq (RChar " ") (RSeq (RChar dquote)
    (RSeq (RGroup 3 distro_codename_re) (RChar dquote)))))).

(** [UbuntuRelease.from_distro_info_line] *)
Definition from_distro_info_line (line : string) : result UbuntuRelease :=
  match re_match distro_info_re line with
  | None => Err ValueError
  | Some caps => Ok (mkRelease (group caps 1) (group caps 3))
  end.

(** The language of a regular expression. *)
Inductive in_lang : regex -> list ascii -> Prop :=
  | L_char c : in_lang (RChar c) [c]
  | L_class p lo hi w : Forall (fun c => p c = true) w -> lo <= length w ->
      (match hi with None => True | Some h => length w <= h end) -> in_lang (RClass p lo hi) w
  | L_seq r1 r2 w1 w2 : in_lang r1 w1 -> in_lang r2 w2 -> in_lang (RSeq r1 r2) (w1 ++ w2)
  | L_opt_none r : in_lang (ROpt r) []
  | L_opt_some r w : in_lang r w -> in_lang (ROpt r) w
  | L_group n r w : in_lang r w -> in_lang (RGroup n r) w.

(** The groups of a regular expression with their bodies, and the groups that
    every match sets (those not under [?]). *)
Fixpoint groups_of (r : regex) : list (nat * regex) :=
  match r with
  | RChar _ | RClass _ _ _ => []
  | RSeq r1 r2 => groups_of r1 ++ groups_of r2
  | ROpt r => groups_of r
  | RGroup n r => (n, r) :: groups_of r
  end.

Fixpoint mandatory_groups (r : regex) : list nat :=
  match r with
  | RChar _ | RClass _ _ _ | ROpt _ => []
  | RSeq r1 r2 => mandatory_groups r1 ++ mandatory_groups r2
  | RGroup n r => n :: mandatory_groups r
  end.

Fixpoint str_forall (p : ascii -> bool) (s : string) : bool :=
  match s with EmptyString => true | String c s' => p c && str_forall p s' end.

Definition within (hi : option nat) (n : nat) : Prop :=
  match hi with None => True | Some h => n <= h end.

(** What a successful run of the matcher leaves: the captures it hands on. *)
Definition caps_inv (r : regex) (caps caps' : captures) : Prop :=
  (forall n v, dict_get n caps' = Some v ->
     dict_get n caps = Some v \/ exists r', (n, r') ∈ groups_of r /\ in_lang r' v) /\
  (forall n, n ∈ mandatory_groups r -> is_Some (dict_get n caps')) /\
  (forall n, is_Some (dict_get n caps) -> is_Some (dict_get n caps')).

(** ** [init_distro_info] *)

(** Characters are code points below 256.  [str.isspace] there: [\t]..[\r],
    [\x1c]..[\x1f], space, [\x85] and [\xa0]. *)
Definition py_isspace (c : ascii) : bool :=
  let n := nat_of_ascii c in
  ((9 <=? n) && (n <=? 13))%nat || ((28 <=? n) && (n <=? 32))%nat || (n =? 133)%nat || (n =? 160)%nat.

Fixpoint lstrip_chars (l : list ascii) : list ascii :=
  match l with
  | c :: l' => if py_isspace c then lstrip_chars l' else l
  | [] => []
  end.

(** [s.strip()] *)
Definition py_strip (s : string) : string :=
  string_of_list_ascii (rev (lstrip_chars (rev (lstrip_chars (list_ascii_of_string s))))).

(** Line boundaries of [str.splitlines]: [\n], [\r], [\r\n], [\v], [\f],
    [\x1c], [\x1d], [\x1e] and [\x85]. *)
Definition is_line_break (c : ascii) : bool :=
  let n := nat_of_ascii c in
  ((10 <=? n) && (n <=? 13))%nat || ((28 <=? n) && (n <=? 30))%nat || (n =? 133)%nat.

(** [cur] is the current line, reversed. *)
Fixpoint splitlines_aux (l : list ascii) (cur : list ascii) : list string :=
  match l with
  | [] => match cur with [] => [] | _ => [string_of_list_ascii (rev cur)] end
  | c :: l' =>
      if is_line_break c then
        string_of_list_ascii (rev cur) ::
          (if (nat_of_ascii c =? 13)%nat then
             match l' with
             | c2 :: l'' => if (nat_of_ascii c2 =? 10)%nat then splitlines_aux l'' [] else splitlines_aux l' []
             | [] => splitlines_aux l' []
             end
           else splitlines_aux l' [])
      else splitlines_aux l' (c :: cur)
  end.

(** [s.splitlines()] *)
Definition splitlines (s : string) : list string := splitlines_aux (list_ascii_of_string s) [].

(** [set(xs)]: a duplicate-free list. *)
Definition py_set {A} `{EqDecision A} (xs : list A) : list A := foldl (fun s x => set_add x s) [] xs.

(** The module globals [_ALL_RELEASES], [_VERSION_TO_CODENAME],
    [SUPPORTED_RELEASES] and [_DEVEL_RELEASE]. *)
Record DistroState := mkDistroState {
  all_releases : list UbuntuRelease;
  version_to_codename : gmap string string;
  supported_releases : list UbuntuRelease;
  devel_release : option UbuntuRelease }.

Section Init.
(** The order in which a Python set of releases is iterated (by hash). *)
Variable set_order : list UbuntuRelease -> list UbuntuRelease.

(** [{release.version: release.codename for release in _ALL_RELEASES}] *)
Definition version_table (all : list UbuntuRelease) : gmap string string :=
  foldl (fun m (r : UbuntuRelease) => <[version r := codename r]> m) ∅ (set_order all).

(** [init_distro_info] on the outputs of the three [distro-info] calls: the
    globals after the call, and whether it raised.  Each global is assigned
    as soon as its value is computed, so a later exception leaves the earlier
    assignments in place. *)
Definition init_distro_info (all_output supported_output devel_output : string) (st : DistroState)
    : DistroState * result unit :=
  let all_output := py_strip all_output in
  let supported_output := py_strip supported_output in
  let devel_output := py_strip devel_output in
  match mapR from_distro_info_line (splitlines all_output) with
  | Err e => (st, Err e)
  | Ok all =>
      let all := py_set all in
      let st := mkDistroState all (version_table all) (supported_releases st) (devel_release st) in
      match mapR from_distro_info_line (splitlines supported_output) with
      | Err e => (st, Err e)
      | Ok sup =>
          let sup := py_set sup in
          let st := mkDistroState (all_releases st) (version_to_codename st) sup (devel_release st) in
          if negb (forallb (fun r => bool_decide (r ∈ all)) sup) then (st, Err AssertionError)
          else
            match (if bool_decide (devel_output = "") then Ok None
                   else r ← from_distro_info_line devel_output; Ok (Some r)) with
            | Err e => (st, Err e)
            | Ok devel =>
                let st := mkDistroState (all_releases st) (version_to_codename st) (supported_releases st) devel in
                match devel with
                | Some d => if bool_decide (d ∈ all) then (st, Ok tt) else (st, Err AssertionError)
                | None => (st, Ok tt)
                end
            end
      end
  end.
End Init.

(** ** [format_forward_port_json], as [main] calls it ([add_extra_info=False]):
    the list of objects before [json.dumps]. *)

Record PROutput := mkPROutput {
  out_number : Z; out_title : string; out_url : string; out_base : string; out_head : string;
  out_forward_ported : bool; out_label : bool; out_forward_ports : pydict string (list Z) }.

(** [forward_port_numbers = sorted([c.pr_future.number for c in forward_ports])]
    with [forward_ports = [c for c in comparisons if not c.missing_slices()]]. *)
Definition forward_port_numbers (comparisons : list Comparison) : list Z :=
  merge_sort Z.le (map (fun c => number (pr_future c))
    (filter (fun c => missing_slices c = ∅) comparisons)).

(** [output_pr["forward_ports"]["ubuntu-" + future_release.version] = forward_port_numbers] *)
Definition forward_ports_step (acc : pydict string (list Z)) (kv : UbuntuRelease * list Comparison)
    : pydict string (list Z) :=
  dict_set (ubuntu_prefix ++ version kv.1) (forward_port_numbers kv.2) acc.

(** [output_pr["forward_ports"]], filled in the order of the future releases. *)
Definition forward_ports (by_future : pydict UbuntuRelease (list Comparison)) : pydict string (list Z) :=
  foldl forward_ports_step [] by_future.

(** The body of the loop over [sorted(grouped_comparisons.items())]. *)
Definition pr_output (new_slices_by_pr : pydict PR (gset string))
    (entry : PR * pydict UbuntuRelease (list Comparison)) : PROutput :=
  let pr := entry.1 in
  mkPROutput (number pr) (title pr) (url pr) (ref (base pr))
    (repo_owner (head pr) ++ "/" ++ repo_name (head pr) ++ "/" ++ ref (head pr))
    (forward_porting_status (dict_get_default pr ∅ new_slices_by_pr) entry.2)
    (label pr) (forward_ports entry.2).

Definition format_forward_port_json (g : grouped) (new_slices_by_pr : pydict PR (gset string)) : list PROutput :=
  map (pr_output new_slices_by_pr) (merge_sort entry_le g).

(** ** The [packages_by_release] loop of [load_data_from_json] *)

(** [s.removeprefix(p)] *)
Definition removeprefix (p s : string) : string :=
  if String.prefix p s then substring (String.length p) (String.length s - String.length p) s else s.

(** [next((r for r in data["ubuntu_releases"] if r["version"] == version), None)],
    each release object read by [UbuntuRelease.from_dict]. *)
Fixpoint find_release (version_ : string) (releases : list UbuntuRelease) : option UbuntuRelease :=
  match releases with
  | [] => None
  | r :: rs => if bool_decide (version r = version_) then Some r else find_release version_ rs
  end.

(** [for release_key, packages in data["packages_by_release"].items(): ...] *)
Definition load_packages_by_release (ubuntu_releases : list UbuntuRelease)
    (packages_json : list (string * list string)) : pydict UbuntuRelease (gset string) :=
  foldl (fun d (kv : string * list string) =>
           match find_release (removeprefix ubuntu_prefix kv.1) ubuntu_releases with
           | Some r => dict_set r (list_to_set kv.2) d
           | None => d
           end) [] packages_json.

Global Instance entry_le_total : Total entry_le.
Proof. intros x y. unfold entry_le, pr_le. lia. Qed.


(** ** Concrete data: the scenarios of the specification *)

Module Scenario.
Definition table : gmap string string :=
  <["20.04" := "Focal Fossa"]> (<["22.04" := "Jammy Jellyfish"]> (<["24.04" := "Noble Numbat"]> ∅)).
Definition focal := mkRelease "20.04" "Focal Fossa".
Definition jammy := mkRelease "22.04" "Jammy Jellyfish".
Definition noble := mkRelease "24.04" "Noble Numbat".
Definition releases := [focal; jammy; noble].

Definition commit (r : string) := mkCommit r "chisel-releases" "canonical" "https://github.com/canonical/chisel-releases" "0".
Definition mkpr (n : Z) (branch : string) :=
  mkPR n "add slices" "dev" (commit "feature") (commit branch) false "https://github.com/canonical/chisel-releases/pull".
Definition pr1 := mkpr 1 "ubuntu-20.04".
Definition pr2 := mkpr 2 "ubuntu-22.04".
Definition pr3 := mkpr 3 "ubuntu-24.04".

Definition foo : gset string := {["foo"]}.
Definition pkgs_all : gset string := {["foo"; "bar"; "baz"]}.
Definition pkgs_no_foo : gset string := {["bar"; "baz"]}.

(** A PR into the repository's [main] branch, and one into a release the
    version table does not know. *)
Definition pr_main := mkpr 4 "main".
Definition pr_unknown := mkpr 5 "ubuntu-26.10".

(** A version table with two spellings of one version tuple. *)
Definition table_dup : gmap string string := <["6.06" := "Dapper Drake"]> (<["06.06" := "Dapper Drake"]> ∅).
Definition dapper := mkRelease "6.06" "Dapper Drake".
Definition dapper' := mkRelease "06.06" "Dapper Drake".
Definition pr6 := mkpr 6 "ubuntu-6.06".
Definition pr7 := mkpr 7 "ubuntu-06.06".

(** One PR per release; only #1 adds slices; only 20.04 has an inventory. *)
Definition by_release : pydict UbuntuRelease (list PR) := [(focal, [pr1]); (jammy, [pr2]); (noble, [pr3])].
Definition new_slices1 : pydict PR (gset string) := [(pr1, foo)].
Definition pkgs_focal : pydict UbuntuRelease (gset string) := [(focal, pkgs_all)].

(** Head and base slices of two PRs: #1 adds [foo], #2 removes [baz]. *)
Definition heads : pydict PR (gset string) := [(pr1, {["foo"; "bar"]}); (pr2, {["bar"]})].
Definition bases : pydict PR (gset string) := [(pr1, {["bar"]}); (pr2, {["bar"; "baz"]})].

(** Output of [distro-info --fullname]: one line per release. *)
Definition nl : string := String "010" "".
Definition distro_line (v cn : string) (lts : bool) : string :=
  "Ubuntu " ++ v ++ (if lts then " LTS" else "") ++ String " " (String dquote (cn ++ String dquote "")).
Definition all_output : string :=
  distro_line "20.04" "Focal Fossa" true ++ nl ++ distro_line "22.04" "Jammy Jellyfish" true ++ nl ++
  distro_line "24.04" "Noble Numbat" true ++ nl ++ distro_line "25.04" "Plucky Puffin" false ++ nl.
Definition supported_output : string :=
  distro_line "22.04" "Jammy Jellyfish" true ++ nl ++ distro_line "24.04" "Noble Numbat" true ++ nl ++
  distro_line "25.04" "Plucky Puffin" false ++ nl.
Definition devel_output : string := distro_line "25.04" "Plucky Puffin" false ++ nl.
Definition st0 : DistroState := mkDistroState [] ∅ [] None.

(** Comparisons of #1 grouped by future release: #2 carries [foo] into
    22.04, nothing was found for 24.04. *)
Definition cmp12 : Comparison := mkComparison pr1 foo pr2 foo ∅.
Definition by_future1 : pydict UbuntuRelease (list Comparison) := [(jammy, [cmp12]); (noble, [])].

(** [data["packages_by_release"]] with both key spellings and an unknown release. *)
Definition packages_json : list (string * list string) :=
  [("ubuntu-20.04", ["foo"; "bar"]); ("22.04", ["bar"]); ("ubuntu-26.04", ["baz"])].
End Scenario.

(** * Theorems *)

(** ** Set algebra of [Comparison] *)

(** C3: [missing_slices] equals [(slices - slices_future) - discontinued_slices];
    the early return and the guard on [discontinued_slices] change nothing. *)
Theorem missing_slices_unconditional (c : Comparison) :
  missing_slices c = (slices c ∖ slices_future c) ∖ discontinued_slices c.
Proof.
  unfold missing_slices.
  destruct (decide (slices c ∖ slices_future c = ∅)) as [Hm|Hm].
  - apply set_eq. intros x. split; [set_solver|].
    intros Hx. apply elem_of_difference in Hx as [Hx _].
    rewrite Hm in Hx. set_solver.
  - destruct (decide (discontinued_slices c = ∅)) as [Hd|Hd]; [|reflexivity].
    rewrite Hd. set_solver.
Qed.

Lemma missing_slices_elem (c : Comparison) (x : string) :
  x ∈ missing_slices c ↔ (x ∈ slices c) /\ (x ∉ slices_future c) /\ (x ∉ discontinued_slices c).
Proof.
  unfold missing_slices.
  destruct (decide (slices c ∖ slices_future c = ∅)) as [Hm|Hm].
  - split; [set_solver|]. intros [H1 [H2 _]].
    assert (Hx : x ∈ slices c ∖ slices_future c) by set_solver. rewrite Hm in Hx. set_solver.
  - destruct (decide (discontinued_slices c = ∅)) as [Hd|Hd]; [rewrite Hd|]; set_solver.
Qed.

(** C6: a larger [slices_future] never yields a larger missing set. *)
Theorem missing_slices_antitone (pr prf : PR) (sl disc A B : gset string) :
  A ⊆ B ->
  missing_slices (mkComparison pr sl prf B disc) ⊆ missing_slices (mkComparison pr sl prf A disc).
Proof.
  intros HAB x. rewrite !missing_slices_elem. simpl. set_solver.
Qed.

Lemma missing_slices_antitone_witness :
  ({["foo"]} : gset string) ⊆ {["foo"; "bar"]} /\
  missing_slices (mkComparison Scenario.pr1 {["foo"; "bar"; "baz"]} Scenario.pr2 {["foo"; "bar"]} ∅)
    ⊆ missing_slices (mkComparison Scenario.pr1 {["foo"; "bar"; "baz"]} Scenario.pr2 {["foo"]} ∅).
Proof.
  split; [set_solver|].
  apply missing_slices_antitone. set_solver.
Defined.

(** ** The verdict *)

(** C7: a PR with no new slices is forward-ported, whatever its comparisons. *)
Theorem forward_porting_status_empty (by_future : pydict UbuntuRelease (list Comparison)) :
  forward_porting_status ∅ by_future = true.
Proof. unfold forward_porting_status. destruct (decide _) as [_|H]; [reflexivity|congruence]. Qed.

(** ** The ordering contract of [Comparison] *)

(** C8: with [pr] into release [r] and [pr_future] into release [rf],
    [Comparison(...)] raises [ValueError] when the version tuple of [r] is not
    below that of [rf], and builds the comparison unchanged when it is. *)
Theorem mk_comparison_contract (vtc : gmap string string) (pr prf : PR) (r rf : UbuntuRelease)
    (t tf : Z * Z) (sl slf disc : gset string) :
  pr_ubuntu_release vtc pr = Ok r ->
  pr_ubuntu_release vtc prf = Ok rf ->
  version_tuple r = Ok t ->
  version_tuple rf = Ok tf ->
  (tuple_lt t tf = false -> mk_comparison vtc pr sl prf slf disc = Err ValueError) /\
  (tuple_lt t tf = true -> mk_comparison vtc pr sl prf slf disc = Ok (mkComparison pr sl prf slf disc)).
Proof.
  intros Hr Hrf Ht Htf.
  unfold mk_comparison, release_ge, release_lt.
  rewrite Hr, Hrf. cbn. rewrite Ht, Htf. cbn.
  split; intros Hlt; rewrite Hlt; reflexivity.
Qed.

Lemma mk_comparison_contract_witness :
  (mk_comparison Scenario.table Scenario.pr2 ∅ Scenario.pr1 ∅ ∅ = Err ValueError) /\
  (mk_comparison Scenario.table Scenario.pr1 ∅ Scenario.pr2 ∅ ∅
     = Ok (mkComparison Scenario.pr1 ∅ Scenario.pr2 ∅ ∅)).
Proof.
  split.
  - refine (proj1 (mk_comparison_contract Scenario.table Scenario.pr2 Scenario.pr1
                     Scenario.jammy Scenario.focal (22, 4)%Z (20, 4)%Z ∅ ∅ ∅ _ _ _ _) _);
      vm_compute; reflexivity.
  - refine (proj2 (mk_comparison_contract Scenario.table Scenario.pr1 Scenario.pr2
                     Scenario.focal Scenario.jammy (20, 4)%Z (22, 4)%Z ∅ ∅ ∅ _ _ _ _) _);
      vm_compute; reflexivity.
Defined.

(** ** Association-list dictionaries *)

Section DictLemmas.
Context {K V : Type} `{EqDecision K}.
Implicit Types (d : pydict K V) (k : K) (v : V).

Lemma dict_get_set_eq d k v : dict_get k (dict_set k v d) = Some v.
Proof.
  induction d as [|[k' v'] d IH]; simpl; [by rewrite decide_True|].
  destruct (decide (k = k')) as [->|Hne]; simpl.
  - by rewrite decide_True.
  - by rewrite decide_False.
Qed.

Lemma dict_get_set_ne d k k' v : k' ≠ k -> dict_get k' (dict_set k v d) = dict_get k' d.
Proof.
  intros Hne. induction d as [|[k'' v'] d IH]; simpl.
  - by rewrite decide_False.
  - destruct (decide (k = k'')) as [->|Hne']; simpl.
    + by rewrite !decide_False.
    + destruct (decide (k' = k'')); [done|exact IH].
Qed.

Lemma dict_get_set d k k' v :
  dict_get k' (dict_set k v d) = if decide (k' = k) then Some v else dict_get k' d.
Proof.
  destruct (decide (k' = k)) as [->|Hne].
  - apply dict_get_set_eq.
  - by apply dict_get_set_ne.
Qed.

Lemma dict_get_Some_keys d k : is_Some (dict_get k d) ↔ k ∈ dict_keys d.
Proof.
  induction d as [|[k' v'] d IH]; simpl.
  - split; [intros [? ?]; discriminate|intros Hk; inversion Hk].
  - rewrite elem_of_cons, <- IH. destruct (decide (k = k')); naive_solver.
Qed.

Lemma dict_get_In d k v : dict_get k d = Some v -> (k, v) ∈ d.
Proof.
  induction d as [|[k' v'] d IH]; simpl; [discriminate|].
  destruct (decide (k = k')) as [->|_].
  - intros [= ->]. left.
  - intros Hg. right. by apply IH.
Qed.

(** A loop that, at element [x], may bind [x] to [g x] and leaves the
    other keys alone. *)
Lemma dict_get_foldl (F : pydict K V -> K -> pydict K V) (g : K -> option V)
    (HF : forall acc x k, dict_get k (F acc x) =
            if decide (k = x) then match g x with Some v => Some v | None => dict_get k acc end
            else dict_get k acc)
    (l : list K) (acc : pydict K V) (k : K) :
  dict_get k (foldl F acc l) =
    if decide (k ∈ l) then match g k with Some v => Some v | None => dict_get k acc end
    else dict_get k acc.
Proof.
  revert acc. induction l as [|x l IH]; intros acc; cbn [foldl].
  - case_decide as Hk; [inversion Hk|done].
  - rewrite IH, HF.
    destruct (decide (k = x)) as [->|Hne].
    + destruct (decide (x ∈ l)); rewrite (decide_True (P := x ∈ x :: l)) by constructor;
        destruct (g x); reflexivity.
    + destruct (decide (k ∈ l)) as [Hl|Hl].
      * rewrite decide_True by (right; done). reflexivity.
      * rewrite decide_False; [done|]. rewrite elem_of_cons. naive_solver.
Qed.
End DictLemmas.

Lemma sort_prs_elem (prs : list PR) (pr : PR) : pr ∈ sort_prs prs ↔ pr ∈ prs.
Proof. unfold sort_prs. apply elem_of_Permutation_proper, merge_sort_Permutation. Qed.

(** ** Delta extraction *)

Definition delta (slices_in_head_by_pr slices_in_base_by_pr : pydict PR (gset string)) (pr : PR) : gset string :=
  dict_get_default pr ∅ slices_in_head_by_pr ∖ dict_get_default pr ∅ slices_in_base_by_pr.

Lemma same_keys_true {V W} (a : pydict PR V) (b : pydict PR W) :
  (forall pr, pr ∈ dict_keys a ↔ pr ∈ dict_keys b) -> same_keys a b = true.
Proof.
  intros H. unfold same_keys. apply andb_true_intro. split; apply forallb_forall;
    intros k Hk; apply bool_decide_eq_true; apply H || apply (proj2 (H k)); by apply list_elem_of_In.
Qed.

Lemma group_new_slices_get (head base : pydict PR (gset string)) (pr : PR) :
  same_keys base head = true ->
  exists r, group_new_slices_by_pr head base = Ok r /\
    dict_get pr r = if decide (pr ∈ dict_keys head)
                    then (if decide (delta head base pr = ∅) then None else Some (delta head base pr))
                    else None.
Proof.
  intros Hk. unfold group_new_slices_by_pr. rewrite Hk. simpl. eexists. split; [reflexivity|].
  rewrite (dict_get_foldl _ (fun x => if decide (delta head base x = ∅) then None else Some (delta head base x))).
  - assert (Hiff : pr ∈ sort_prs (remove_dups (dict_keys head)) ↔ pr ∈ dict_keys head)
      by (by rewrite sort_prs_elem, elem_of_remove_dups).
    destruct (decide (pr ∈ dict_keys head)) as [Hin|Hin].
    + rewrite decide_True by (by apply Hiff). cbn beta.
      destruct (decide (delta head base pr = ∅)); reflexivity.
    + rewrite decide_False by (by rewrite Hiff). reflexivity.
  - intros acc x k. fold (delta head base x).
    destruct (decide (delta head base x = ∅)) as [He|He].
    + destruct (decide (k = x)); reflexivity.
    + rewrite dict_get_set. reflexivity.
Qed.

(** C10: with head and base maps over the same PRs, [_group_new_slices_by_pr]
    has a key exactly for the PRs whose delta (head minus base) is non-empty,
    bound to that delta; no value is empty. *)
Theorem group_new_slices_nonempty (head base : pydict PR (gset string)) :
  (forall pr, pr ∈ dict_keys head ↔ pr ∈ dict_keys base) ->
  exists r, group_new_slices_by_pr head base = Ok r /\
    (forall pr, is_Some (dict_get pr r) ↔ pr ∈ dict_keys head /\ delta head base pr ≠ ∅) /\
    (forall pr v, dict_get pr r = Some v -> v ≠ ∅ /\ v = delta head base pr).
Proof.
  intros Hkeys.
  assert (Hs : same_keys base head = true) by (apply same_keys_true; intros pr; by rewrite Hkeys).
  destruct (group_new_slices_get head base (mkPR 0 "" "" (mkCommit "" "" "" "" "") (mkCommit "" "" "" "" "") false "") Hs)
    as [r [Hr _]].
  exists r. split; [exact Hr|]. split.
  - intros pr. destruct (group_new_slices_get head base pr Hs) as [r' [Hr' Hg]].
    rewrite Hr in Hr'. injection Hr' as <-. rewrite Hg.
    destruct (decide (pr ∈ dict_keys head)), (decide (delta head base pr = ∅));
      split; try naive_solver; intros [? ?]; discriminate.
  - intros pr v. destruct (group_new_slices_get head base pr Hs) as [r' [Hr' Hg]].
    rewrite Hr in Hr'. injection Hr' as <-. rewrite Hg.
    destruct (decide (pr ∈ dict_keys head)), (decide (delta head base pr = ∅)); try discriminate.
    intros [= <-]. done.
Qed.

Lemma group_new_slices_nonempty_witness :
  (forall pr, pr ∈ dict_keys Scenario.heads ↔ pr ∈ dict_keys Scenario.bases) /\
  exists r, group_new_slices_by_pr Scenario.heads Scenario.bases = Ok r /\
    (forall pr, is_Some (dict_get pr r) ↔ pr ∈ dict_keys Scenario.heads /\ delta Scenario.heads Scenario.bases pr ≠ ∅) /\
    (forall pr v, dict_get pr r = Some v -> v ≠ ∅ /\ v = delta Scenario.heads Scenario.bases pr).
Proof.
  assert (H : forall pr, pr ∈ dict_keys Scenario.heads ↔ pr ∈ dict_keys Scenario.bases)
    by (intros pr; reflexivity).
  split; [exact H|]. apply group_new_slices_nonempty. exact H.
Defined.

(** ** Partition by release *)

Lemma set_add_elem {A} `{EqDecision A} (x y : A) (s : list A) : y ∈ set_add x s ↔ y = x \/ y ∈ s.
Proof.
  unfold set_add. destruct (decide (x ∈ s)); rewrite ?elem_of_app, ?list_elem_of_singleton; naive_solver.
Qed.

Lemma setdefault_empty_get {K V} `{EqDecision K} (x k : K) (d : pydict K (list V)) :
  dict_get k (setdefault_empty x d) = if decide (k = x) then Some (dict_get_default x [] d) else dict_get k d.
Proof.
  unfold setdefault_empty, dict_get_default.
  destruct (dict_get x d) eqn:Hx; rewrite ?dict_get_set;
    destruct (decide (k = x)); subst; auto.
Qed.

Lemma setdefault_foldl_get {K V} `{EqDecision K} (l : list K) (k : K) (d : pydict K (list V)) :
  dict_get k (foldl (fun d r => setdefault_empty r d) d l) =
    if decide (k ∈ l) then Some (dict_get_default k [] d) else dict_get k d.
Proof.
  revert d. induction l as [|x l IH]; intros d; cbn [foldl].
  - case_decide as Hk; [inversion Hk|done].
  - rewrite IH, setdefault_empty_get. unfold dict_get_default at 1.
    rewrite setdefault_empty_get.
    destruct (decide (k = x)) as [->|Hne].
    + rewrite (decide_True (P := x ∈ x :: l)) by constructor.
      destruct (decide (x ∈ l)); reflexivity.
    + destruct (decide (k ∈ l)).
      * rewrite decide_True by (right; done). reflexivity.
      * rewrite decide_False; [done|]. rewrite elem_of_cons. naive_solver.
Qed.

Lemma initial_partition_get (rels : list UbuntuRelease) (R : UbuntuRelease) :
  dict_get R (foldl (fun d r => dict_set r [] d) ([] : pydict UbuntuRelease (list PR)) rels) =
    if decide (R ∈ rels) then Some [] else None.
Proof.
  rewrite (dict_get_foldl _ (fun _ => Some [])); [by destruct (decide _)|].
  intros acc x k. rewrite dict_get_set. reflexivity.
Qed.

(** The loop of [_group_prs_by_ubuntu_release] over PRs that all resolve. *)
Lemma group_loop_ok (vtc : gmap string string) (l : list PR) (d : pydict UbuntuRelease (list PR)) :
  (forall pr, pr ∈ l -> exists r, pr_ubuntu_release vtc pr = Ok r) ->
  exists d', foldM (fun d pr =>
         r ← pr_ubuntu_release vtc pr;
         match dict_get r d with
         | None => Ok d
         | Some s => Ok (dict_set r (set_add pr s) d)
         end) l d = Ok d' /\
    (forall R, is_Some (dict_get R d') ↔ is_Some (dict_get R d)) /\
    (forall R s', dict_get R d' = Some s' -> exists s, dict_get R d = Some s /\
        forall pr, pr ∈ s' ↔ pr ∈ s \/ (pr ∈ l /\ pr_ubuntu_release vtc pr = Ok R)).
Proof.
  revert d. induction l as [|x l IH]; intros d Hall; cbn [foldM].
  - exists d. split; [done|]. split; [done|]. intros R s' Hs. exists s'. split; [done|].
    intros pr. split; [by left|]. intros [?|[Hin _]]; [done|inversion Hin].
  - destruct (Hall x ltac:(constructor)) as [rx Hrx].
    assert (Hl : forall pr, pr ∈ l -> exists r, pr_ubuntu_release vtc pr = Ok r)
      by (intros pr Hpr; apply Hall; by right).
    unfold mbind, result_bind at 1. rewrite Hrx.
    destruct (dict_get rx d) as [sx|] eqn:Hdx.
    + destruct (IH (dict_set rx (set_add x sx) d) Hl) as [d' [Hrun [Hkeys Hget]]].
      exists d'. split; [exact Hrun|]. split.
      * intros R. rewrite Hkeys, dict_get_set. destruct (decide (R = rx)) as [->|]; [|done].
        rewrite Hdx. split; intros _; eexists; done.
      * intros R s' Hs'. destruct (Hget R s' Hs') as [s1 [Hs1 Hmem]].
        rewrite dict_get_set in Hs1. destruct (decide (R = rx)) as [->|Hne].
        -- injection Hs1 as <-. exists sx. split; [done|]. intros pr.
           rewrite Hmem, set_add_elem, elem_of_cons. split.
           ++ intros [[->|Hp]|[Hp HR]];
                [right; split; [by left|done] | by left | right; split; [by right|done]].
           ++ intros [Hp|[[->|Hp] HR]]; [left; by right | left; by left | right; by split].
        -- exists s1. split; [done|]. intros pr. rewrite Hmem, elem_of_cons. split.
           ++ intros [Hp|[Hp HR]]; [by left|right; split; [by right|done]].
           ++ intros [Hp|[[->|Hp] HR]]; [by left| |right; by split].
              rewrite Hrx in HR. injection HR as ->. congruence.
    + destruct (IH d Hl) as [d' [Hrun [Hkeys Hget]]].
      exists d'. split; [exact Hrun|]. split; [exact Hkeys|].
      intros R s' Hs'. destruct (Hget R s' Hs') as [s1 [Hs1 Hmem]].
      exists s1. split; [done|]. intros pr. rewrite Hmem, elem_of_cons. split.
      * intros [Hp|[Hp HR]]; [by left|right; split; [by right|done]].
      * intros [Hp|[[->|Hp] HR]]; [by left| |right; by split].
        rewrite Hrx in HR. injection HR as ->. congruence.
Qed.

Lemma foldM_err {A B} (f : B -> A -> result B) (l : list A) (x : A) (acc : B) :
  x ∈ l -> (forall acc', exists e, f acc' x = Err e) -> exists e, foldM f l acc = Err e.
Proof.
  intros Hx Hf. revert acc. induction l as [|y l IH]; intros acc; [inversion Hx|].
  cbn [foldM]. apply elem_of_cons in Hx as [->|Hx].
  - destruct (Hf acc) as [e He]. rewrite He. by exists e.
  - destruct (f acc y); [by apply IH|by eexists].
Qed.

(** The partition: every known release is a key, and the PRs under a key
    are exactly the PRs resolving to it. *)
Definition is_partition (vtc : gmap string string) (prs : list PR) (ubuntu_releases : list UbuntuRelease)
    (d : pydict UbuntuRelease (list PR)) : Prop :=
  (forall R, R ∈ dict_keys d ↔ R ∈ ubuntu_releases) /\
  (forall R s pr, dict_get R d = Some s -> pr ∈ s ↔ pr ∈ prs /\ pr_ubuntu_release vtc pr = Ok R).

Lemma group_prs_ok (vtc : gmap string string) (prs : list PR) (ubuntu_releases : list UbuntuRelease) :
  (forall pr, pr ∈ prs -> exists r, pr_ubuntu_release vtc pr = Ok r) ->
  exists d, group_prs_by_ubuntu_release vtc prs ubuntu_releases = Ok d /\ is_partition vtc prs ubuntu_releases d.
Proof.
  intros Hall. unfold group_prs_by_ubuntu_release.
  destruct (group_loop_ok vtc (sort_prs prs) (foldl (fun d r => dict_set r [] d) [] ubuntu_releases))
    as [d' [Hrun [Hkeys Hget]]].
  { intros pr Hpr. apply Hall. by apply sort_prs_elem. }
  unfold mbind at 1, result_bind at 1. rewrite Hrun.
  eexists. split; [reflexivity|]. split.
  - intros R. rewrite <- dict_get_Some_keys, setdefault_foldl_get.
    destruct (decide (R ∈ ubuntu_releases)); [split; [done|]; intros _; by eexists|].
    rewrite Hkeys, initial_partition_get, decide_False by done. split; [intros [? ?]; discriminate|done].
  - intros R s pr. rewrite setdefault_foldl_get.
    assert (HR : R ∈ ubuntu_releases -> is_Some (dict_get R d')).
    { intros HR. rewrite Hkeys, initial_partition_get, decide_True by done. by eexists. }
    destruct (decide (R ∈ ubuntu_releases)) as [Hin|Hin].
    + unfold dict_get_default. destruct (HR Hin) as [s' Hs']. rewrite Hs'. intros [= <-].
      destruct (Hget R s' Hs') as [s0 [Hs0 Hmem]].
      rewrite initial_partition_get, decide_True in Hs0 by done. injection Hs0 as <-.
      rewrite Hmem, sort_prs_elem. split; [intros [Hn|?]; [inversion Hn|done]|by right].
    + intros Hs. destruct (Hget R s Hs) as [s0 [Hs0 _]].
      rewrite initial_partition_get, decide_False in Hs0 by done. discriminate.
Qed.

Lemma group_prs_err (vtc : gmap string string) (prs : list PR) (ubuntu_releases : list UbuntuRelease)
    (pr : PR) (e : exc) :
  pr ∈ prs -> pr_ubuntu_release vtc pr = Err e ->
  exists e', group_prs_by_ubuntu_release vtc prs ubuntu_releases = Err e'.
Proof.
  intros Hpr He. unfold group_prs_by_ubuntu_release.
  destruct (foldM_err (fun d pr =>
         r ← pr_ubuntu_release vtc pr;
         match dict_get r d with
         | None => Ok d
         | Some s => Ok (dict_set r (set_add pr s) d)
         end) (sort_prs prs) pr (foldl (fun d r => dict_set r [] d) [] ubuntu_releases)) as [e' He'].
  - by apply sort_prs_elem.
  - intros acc. exists e. unfold mbind, result_bind. by rewrite He.
  - exists e'. unfold mbind at 1, result_bind at 1. by rewrite He'.
Qed.

(** C2, as stated: a PR whose branch does not resolve to a release is
    dropped and the partition of the others returned.  It fails: the branch
    [main] raises [AssertionError] and an unknown version raises
    [ValueError]; no partition is returned. *)
Lemma group_prs_unresolvable_raises :
  group_prs_by_ubuntu_release Scenario.table [Scenario.pr1; Scenario.pr_main] Scenario.releases = Err AssertionError /\
  group_prs_by_ubuntu_release Scenario.table [Scenario.pr1; Scenario.pr_unknown] Scenario.releases = Err ValueError.
Proof. split; vm_compute; reflexivity. Qed.

(** C2 (amended): when every PR's branch resolves through the version table,
    [_group_prs_by_ubuntu_release] returns the partition: every known release
    is a key, a key holds exactly the PRs resolving to it, and a PR resolving to
    a release outside the known list is in no key (dropped with a warning).  A
    PR whose branch does not resolve makes it raise. *)
Theorem group_prs_partition (vtc : gmap string string) (prs : list PR) (ubuntu_releases : list UbuntuRelease) :
  ((forall pr, pr ∈ prs -> exists r, pr_ubuntu_release vtc pr = Ok r) ->
     exists d, group_prs_by_ubuntu_release vtc prs ubuntu_releases = Ok d /\
               is_partition vtc prs ubuntu_releases d) /\
  (forall pr e, pr ∈ prs -> pr_ubuntu_release vtc pr = Err e ->
     exists e', group_prs_by_ubuntu_release vtc prs ubuntu_releases = Err e').
Proof.
  split; [apply group_prs_ok|]. intros pr e. apply group_prs_err.
Qed.

Lemma group_prs_partition_witness :
  (forall pr, pr ∈ [Scenario.pr1; Scenario.pr3] -> exists r, pr_ubuntu_release Scenario.table pr = Ok r) /\
  (exists d, group_prs_by_ubuntu_release Scenario.table [Scenario.pr1; Scenario.pr3] [Scenario.focal; Scenario.jammy] = Ok d /\
             is_partition Scenario.table [Scenario.pr1; Scenario.pr3] [Scenario.focal; Scenario.jammy] d) /\
  (exists e', group_prs_by_ubuntu_release Scenario.table [Scenario.pr1; Scenario.pr_main] Scenario.releases = Err e').
Proof.
  assert (H : forall pr, pr ∈ [Scenario.pr1; Scenario.pr3] -> exists r, pr_ubuntu_release Scenario.table pr = Ok r).
  { intros pr Hpr. apply elem_of_cons in Hpr as [->|Hpr]; [eexists; vm_compute; reflexivity|].
    apply list_elem_of_singleton in Hpr as ->. eexists; vm_compute; reflexivity. }
  split; [exact H|]. split.
  - apply (proj1 (group_prs_partition Scenario.table [Scenario.pr1; Scenario.pr3] [Scenario.focal; Scenario.jammy])).
    exact H.
  - apply (proj2 (group_prs_partition Scenario.table [Scenario.pr1; Scenario.pr_main] Scenario.releases)
             Scenario.pr_main AssertionError).
    + right. left.
    + vm_compute. reflexivity.
Defined.

(** ** Loops in the result monad *)

Lemma foldM_ok {A B} (P : B -> Prop) (f : B -> A -> result B) (l : list A) (acc : B) :
  P acc -> (forall a x, x ∈ l -> P a -> exists a', f a x = Ok a' /\ P a') ->
  exists acc', foldM f l acc = Ok acc' /\ P acc'.
Proof.
  revert acc. induction l as [|x l IH]; intros acc HP Hf; cbn [foldM]; [by exists acc|].
  destruct (Hf acc x ltac:(constructor) HP) as [a' [-> HP']].
  apply IH; [exact HP'|]. intros a y Hy. apply Hf. by right.
Qed.

Lemma foldM_inv {A B} (P : B -> Prop) (f : B -> A -> result B) (l : list A) (acc acc' : B) :
  foldM f l acc = Ok acc' -> P acc ->
  (forall a x a', x ∈ l -> f a x = Ok a' -> P a -> P a') -> P acc'.
Proof.
  revert acc. induction l as [|x l IH]; intros acc Hrun HP Hf; cbn [foldM] in Hrun.
  - by injection Hrun as <-.
  - destruct (f acc x) as [a'|e] eqn:Hx; [|discriminate].
    apply (IH a'); [exact Hrun| |].
    + by apply (Hf acc x a'); [constructor| |].
    + intros a y a'' Hy. apply Hf. by right.
Qed.

Lemma foldM_ext {A B} (f g : B -> A -> result B) (l : list A) (acc : B) :
  (forall a x, x ∈ l -> f a x = g a x) -> foldM f l acc = foldM g l acc.
Proof.
  revert acc. induction l as [|x l IH]; intros acc Hfg; cbn [foldM]; [done|].
  rewrite Hfg by constructor. destruct (g acc x) as [acc'|e]; [|done].
  apply IH. intros a y Hy. apply Hfg. by right.
Qed.

(** [match l with [] => skip | _ => loop over l]: the guard is the empty loop. *)
Lemma foldM_guard {A B} (f : B -> A -> result B) (l : list A) (acc : B) :
  match l with [] => Ok acc | _ => foldM f l acc end = foldM f l acc.
Proof. by destruct l. Qed.

Lemma filterM_ok {A} (p : A -> result bool) (l : list A) :
  (forall x, x ∈ l -> exists b, p x = Ok b) ->
  exists ys, filterM p l = Ok ys /\ forall y, y ∈ ys ↔ y ∈ l /\ p y = Ok true.
Proof.
  induction l as [|x l IH]; intros Hp; cbn [filterM].
  - exists []. split; [done|]. intros y. split; [intros Hy; inversion Hy|intros [Hy _]; inversion Hy].
  - destruct (Hp x ltac:(constructor)) as [b Hb]. rewrite Hb.
    destruct IH as [ys [-> Hys]]; [intros y Hy; apply Hp; by right|].
    eexists. split; [reflexivity|]. intros y. rewrite elem_of_cons.
    destruct b.
    + rewrite elem_of_cons, Hys. split; [intros [->|[? ?]]; auto|].
      intros [[->|?] ?]; auto.
    + rewrite Hys. split; [intros [? ?]; auto|].
      intros [[->|?] Hy]; [congruence|auto].
Qed.

(** ** Keys of association lists *)

Section DictKeys.
Context {K V : Type} `{EqDecision K}.
Implicit Types (d : pydict K V) (k : K) (v : V).

Lemma dict_set_keys d k k' v : k' ∈ dict_keys (dict_set k v d) ↔ k' = k \/ k' ∈ dict_keys d.
Proof.
  induction d as [|[k0 v0] d IH]; simpl.
  - rewrite list_elem_of_singleton. split; [by left|]. intros [?|Hk]; [done|inversion Hk].
  - destruct (decide (k = k0)) as [->|Hne]; simpl; rewrite !elem_of_cons; [naive_solver|].
    rewrite IH. naive_solver.
Qed.

Lemma dict_set_nodup d k v : NoDup (dict_keys d) -> NoDup (dict_keys (dict_set k v d)).
Proof.
  induction d as [|[k0 v0] d IH]; simpl; intros Hnd.
  - constructor; [intros Hk; inversion Hk|constructor].
  - apply NoDup_cons in Hnd as [Hk0 Hnd].
    destruct (decide (k = k0)) as [->|Hne]; simpl; constructor; auto.
    rewrite dict_set_keys. naive_solver.
Qed.

Lemma dict_In_keys d k v : (k, v) ∈ d -> k ∈ dict_keys d.
Proof.
  induction d as [|[k0 v0] d IH]; simpl; intros Hin; [inversion Hin|].
  apply elem_of_cons in Hin as [[= -> ->]|Hin]; [constructor|right; auto].
Qed.

Lemma dict_get_of_In d k v : NoDup (dict_keys d) -> (k, v) ∈ d -> dict_get k d = Some v.
Proof.
  induction d as [|[k0 v0] d IH]; simpl; intros Hnd Hin; [inversion Hin|].
  apply NoDup_cons in Hnd as [Hk0 Hnd].
  apply elem_of_cons in Hin as [[= -> ->]|Hin]; [by rewrite decide_True|].
  rewrite decide_False; [auto|]. intros ->. apply Hk0. by apply (dict_In_keys _ _ v).
Qed.
End DictKeys.

Lemma setdefault_nodup {K V} `{EqDecision K} (k : K) (d : pydict K (list V)) :
  NoDup (dict_keys d) -> NoDup (dict_keys (setdefault_empty k d)).
Proof. unfold setdefault_empty. destruct (dict_get k d); [done|apply dict_set_nodup]. Qed.

(** What a successful [_group_prs_by_ubuntu_release] returns. *)
Lemma group_prs_ok_partition (vtc : gmap string string) (prs : list PR)
    (ubuntu_releases : list UbuntuRelease) (d : pydict UbuntuRelease (list PR)) :
  group_prs_by_ubuntu_release vtc prs ubuntu_releases = Ok d ->
  is_partition vtc prs ubuntu_releases d /\ NoDup (dict_keys d).
Proof.
  intros Hd. split.
  - assert (Hall : forall pr, pr ∈ prs -> exists r, pr_ubuntu_release vtc pr = Ok r).
    { intros pr Hpr. destruct (pr_ubuntu_release vtc pr) as [r|e] eqn:He; [by exists r|].
      destruct (group_prs_err vtc prs ubuntu_releases pr e Hpr He) as [e' He']. congruence. }
    destruct (group_prs_ok vtc prs ubuntu_releases Hall) as [d' [Hd' Hp]].
    rewrite Hd in Hd'. by injection Hd' as ->.
  - unfold group_prs_by_ubuntu_release in Hd.
    destruct (foldM _ _ _) as [d1|e] eqn:Hrun; [|discriminate].
    cbn in Hd. injection Hd as <-.
    assert (Hnd1 : NoDup (dict_keys d1)).
    { apply (foldM_inv (fun d => NoDup (dict_keys d)) _ _ _ _ Hrun).
      - assert (Hinit : forall d0 : pydict UbuntuRelease (list PR), NoDup (dict_keys d0) ->
                  NoDup (dict_keys (foldl (fun d r => dict_set r [] d) d0 ubuntu_releases))).
        { clear. induction ubuntu_releases as [|r rs IH]; intros d0 Hd0; cbn [foldl]; [done|].
          apply IH. by apply dict_set_nodup. }
        apply Hinit. constructor.
      - intros a x a' _ Hx Ha. unfold mbind, result_bind in Hx.
        destruct (pr_ubuntu_release vtc x); [|discriminate].
        destruct (dict_get _ a); injection Hx as <-; [by apply dict_set_nodup|done]. }
    clear Hrun. revert d1 Hnd1. induction ubuntu_releases as [|r rs IH]; intros d1 Hnd1; cbn [foldl]; [done|].
    apply IH. by apply setdefault_nodup.
Qed.

(** ** Python's tuple order *)

Lemma tuple_lt_iff (a b : Z * Z) : tuple_lt a b = true ↔ (a.1 < b.1 \/ (a.1 = b.1 /\ a.2 < b.2))%Z.
Proof.
  unfold tuple_lt. rewrite Bool.orb_true_iff, Bool.andb_true_iff, Z.ltb_lt, Z.eqb_eq, Z.ltb_lt. done.
Qed.

Lemma tuple_lt_flip (a b : Z * Z) : tuple_lt a b = false -> a ≠ b -> tuple_lt b a = true.
Proof.
  intros Hab Hne. apply tuple_lt_iff.
  assert (H : ~ (a.1 < b.1 \/ (a.1 = b.1 /\ a.2 < b.2))%Z) by (rewrite <- tuple_lt_iff; congruence).
  destruct a as [a1 a2], b as [b1 b2]; simpl in *.
  assert (~ (a1 = b1 /\ a2 = b2)) by (intros [-> ->]; congruence). lia.
Qed.

(** ** The comparison engine on a well-formed partition *)

(** The pair of a comparison is in increasing release order. *)
Definition comparison_ordered (vtc : gmap string string) (c : Comparison) : Prop :=
  exists R R' t t', pr_ubuntu_release vtc (cmp_pr c) = Ok R /\ pr_ubuntu_release vtc (pr_future c) = Ok R' /\
    version_tuple R = Ok t /\ version_tuple R' = Ok t' /\ tuple_lt t t' = true.

Lemma mk_comparison_ok (vtc : gmap string string) (pr prf : PR) (R R' : UbuntuRelease) (t t' : Z * Z)
    (sl slf disc : gset string) :
  pr_ubuntu_release vtc pr = Ok R -> pr_ubuntu_release vtc prf = Ok R' ->
  version_tuple R = Ok t -> version_tuple R' = Ok t' -> tuple_lt t t' = true ->
  mk_comparison vtc pr sl prf slf disc = Ok (mkComparison pr sl prf slf disc).
Proof.
  intros HR HR' Ht Ht' Hlt. unfold mk_comparison, release_ge, release_lt.
  rewrite HR, HR'. cbn. rewrite Ht, Ht'. cbn. by rewrite Hlt.
Qed.

Section WellFormed.
Variable vtc : gmap string string.
Variable pbr : pydict UbuntuRelease (list PR).
Variable new_slices_by_pr : pydict PR (gset string).
Variable packages_by_release : pydict UbuntuRelease (gset string).

Hypothesis Hpart : forall R s pr, dict_get R pbr = Some s -> pr ∈ s -> pr_ubuntu_release vtc pr = Ok R.
Hypothesis Hnodup : NoDup (dict_keys pbr).
Hypothesis Hparse : forall R, R ∈ dict_keys pbr -> exists t, version_tuple R = Ok t.
Hypothesis Hinj : forall R1 R2, R1 ∈ dict_keys pbr -> R2 ∈ dict_keys pbr ->
  version_tuple R1 = version_tuple R2 -> R1 = R2.

Lemma future_releases_ok (R : UbuntuRelease) :
  R ∈ dict_keys pbr ->
  exists fut, future_releases_of pbr R = Ok fut /\
    forall r, r ∈ fut -> r ∈ dict_keys pbr /\ exists t t', version_tuple R = Ok t /\
                           version_tuple r = Ok t' /\ tuple_lt t t' = true.
Proof.
  intros HR. destruct (Hparse R HR) as [t Ht].
  destruct (filterM_ok (fun r => release_gt r R) (dict_keys pbr)) as [fut [Hfut Hmem]].
  { intros r Hr. destruct (Hparse r Hr) as [t' Ht'].
    unfold release_gt, release_lt. rewrite Ht'. cbn. rewrite Ht. cbn. by eexists. }
  exists fut. split; [exact Hfut|]. intros r Hr.
  apply Hmem in Hr as [Hr Hgt]. split; [exact Hr|].
  destruct (Hparse r Hr) as [t' Ht']. exists t, t'. split; [done|]. split; [done|].
  unfold release_gt, release_lt in Hgt. rewrite Ht' in Hgt. cbn in Hgt. rewrite Ht in Hgt. cbn in Hgt.
  injection Hgt as Hgt. apply Bool.andb_true_iff in Hgt as [Hlt Hne].
  apply Bool.negb_true_iff in Hlt. apply bool_decide_eq_true in Hne.
  apply tuple_lt_flip; [exact Hlt|]. intros Heq. apply Hne, Hinj; [done|done|]. by rewrite Ht, Ht', Heq.
Qed.

Let Good (cs : list Comparison) := forall c, c ∈ cs -> comparison_ordered vtc c.

Lemma good_set_add (c : Comparison) (cs : list Comparison) :
  comparison_ordered vtc c -> Good cs -> Good (set_add c cs).
Proof. intros Hc Hcs c' Hc'. apply set_add_elem in Hc' as [->|Hc']; auto. Qed.

Lemma compare_release_ok (acc : list Comparison) (entry : UbuntuRelease * list PR) :
  entry ∈ pbr -> Good acc ->
  exists acc', compare_release vtc pbr new_slices_by_pr packages_by_release acc entry = Ok acc' /\ Good acc'.
Proof.
  destruct entry as [R prsR]. intros Hentry Hacc.
  pose proof (dict_get_of_In _ _ _ Hnodup Hentry) as HgetR.
  assert (HRkey : R ∈ dict_keys pbr) by (eapply dict_In_keys; exact Hentry).
  destruct (future_releases_ok R HRkey) as [fut [Hfut Hfutm]].
  unfold compare_release. simpl. unfold mbind at 1, result_bind at 1. rewrite Hfut. cbv beta iota. destruct fut as [|f0 fut]; [by exists acc|].
  apply foldM_ok; [exact Hacc|]. intros a pr Hpr Ha.
  pose proof (Hpart R prsR pr HgetR Hpr) as HprR.
  unfold compare_pr. apply foldM_ok; [exact Ha|]. intros a1 fr Hfr Ha1.
  destruct (Hfutm fr Hfr) as [Hfrkey [t [t' [Ht [Ht' Hlt]]]]].
  apply dict_get_Some_keys in Hfrkey as [prsF HgetF].
  unfold compare_with_release. cbv zeta.
  replace (dict_get_default fr [] pbr) with prsF by (unfold dict_get_default; by rewrite HgetF).
  rewrite foldM_guard.
  apply foldM_ok; [exact Ha1|]. intros a2 pf Hpf Ha2.
  pose proof (Hpart fr prsF pf HgetF Hpf) as Hpf_fr.
  unfold compare_with_future.
  erewrite mk_comparison_ok by eassumption. cbn.
  eexists. split; [reflexivity|]. apply good_set_add; [|exact Ha2].
  exists R, fr, t, t'. simpl. done.
Qed.

Lemma get_comparisons_ok :
  exists cs, get_comparisons vtc pbr new_slices_by_pr packages_by_release = Ok cs /\
    forall c, c ∈ cs -> comparison_ordered vtc c.
Proof.
  unfold get_comparisons. apply foldM_ok; [intros c Hc; inversion Hc|].
  intros a entry Hentry Ha. by apply compare_release_ok.
Qed.
End WellFormed.

(** C4, as stated: on every partition returned by [_group_prs_by_ubuntu_release]
    the engine never reaches the [ValueError] of [Comparison.__post_init__].  It
    fails when two known releases spell one version tuple differently ([6.06]
    and [06.06]): [total_ordering] makes each one [>] the other, and the
    comparison between their PRs raises. *)
Lemma get_comparisons_equal_tuples_raise :
  group_prs_by_ubuntu_release Scenario.table_dup [Scenario.pr6; Scenario.pr7] [Scenario.dapper; Scenario.dapper']
    = Ok [(Scenario.dapper, [Scenario.pr6]); (Scenario.dapper', [Scenario.pr7])] /\
  get_comparisons Scenario.table_dup [(Scenario.dapper, [Scenario.pr6]); (Scenario.dapper', [Scenario.pr7])] [] []
    = Err ValueError /\
  mk_comparison Scenario.table_dup Scenario.pr6 ∅ Scenario.pr7 ∅ ∅ = Err ValueError.
Proof. split; [|split]; vm_compute; reflexivity. Qed.

(** C4 (amended): when every known release has a [major.minor] version and no
    two known releases share a version tuple, [_get_comparisons] on the
    partition returned by [_group_prs_by_ubuntu_release] raises nothing, and
    each comparison it builds goes from a release to a strictly later one, so
    the [ValueError] of [Comparison.__post_init__] is unreachable. *)
Theorem get_comparisons_safe (vtc : gmap string string) (prs : list PR) (ubuntu_releases : list UbuntuRelease)
    (pbr : pydict UbuntuRelease (list PR)) (new_slices_by_pr : pydict PR (gset string))
    (packages_by_release : pydict UbuntuRelease (gset string)) :
  group_prs_by_ubuntu_release vtc prs ubuntu_releases = Ok pbr ->
  (forall R, R ∈ ubuntu_releases -> exists t, version_tuple R = Ok t) ->
  (forall R1 R2, R1 ∈ ubuntu_releases -> R2 ∈ ubuntu_releases -> version_tuple R1 = version_tuple R2 -> R1 = R2) ->
  exists cs, get_comparisons vtc pbr new_slices_by_pr packages_by_release = Ok cs /\
    forall c, c ∈ cs -> comparison_ordered vtc c.
Proof.
  intros Hg Hparse Hinj.
  destruct (group_prs_ok_partition vtc prs ubuntu_releases pbr Hg) as [[Hkeys Hmem] Hnd].
  apply get_comparisons_ok; [| exact Hnd | |].
  - intros R s pr Hs Hpr. by apply (Hmem R s pr Hs).
  - intros R HR. apply Hparse. by apply Hkeys.
  - intros R1 R2 H1 H2. apply Hinj; by apply Hkeys.
Qed.

Lemma get_comparisons_safe_witness :
  exists cs, get_comparisons Scenario.table
    [(Scenario.focal, [Scenario.pr1]); (Scenario.jammy, [Scenario.pr2]); (Scenario.noble, [Scenario.pr3])]
    [(Scenario.pr1, Scenario.foo); (Scenario.pr2, Scenario.foo)] [(Scenario.noble, Scenario.pkgs_all)] = Ok cs /\
    forall c, c ∈ cs -> comparison_ordered Scenario.table c.
Proof.
  apply (get_comparisons_safe Scenario.table [Scenario.pr1; Scenario.pr2; Scenario.pr3] Scenario.releases).
  - vm_compute. reflexivity.
  - intros R HR. repeat (apply elem_of_cons in HR as [->|HR]; [eexists; vm_compute; reflexivity|]).
    inversion HR.
  - intros R1 R2 H1 H2.
    repeat (apply elem_of_cons in H1 as [->|H1]; [
      repeat (apply elem_of_cons in H2 as [->|H2]; [vm_compute; first [reflexivity|discriminate]|]);
      inversion H2|]).
    inversion H1.
Defined.

(** ** Package inventories *)

Lemma mk_comparison_Ok_inv (vtc : gmap string string) (pr prf : PR) (sl slf disc : gset string) (c : Comparison) :
  mk_comparison vtc pr sl prf slf disc = Ok c -> c = mkComparison pr sl prf slf disc.
Proof.
  unfold mk_comparison, mbind, result_bind.
  destruct (pr_ubuntu_release vtc pr); [|discriminate].
  destruct (pr_ubuntu_release vtc prf); [|discriminate].
  destruct (release_ge _ _) as [[]|]; cbn; congruence.
Qed.

(** [_get_comparisons] reads the inventories only through
    [packages_by_release.get(future_release, frozenset())]. *)
Lemma get_comparisons_pkgs_ext (vtc : gmap string string) (pbr : pydict UbuntuRelease (list PR))
    (ns : pydict PR (gset string)) (p1 p2 : pydict UbuntuRelease (gset string)) :
  (forall fr, dict_get_default fr ∅ p1 = dict_get_default fr ∅ p2) ->
  get_comparisons vtc pbr ns p1 = get_comparisons vtc pbr ns p2.
Proof.
  intros Hext. unfold get_comparisons. apply foldM_ext. intros a [R prsR] _.
  unfold compare_release. simpl. unfold mbind, result_bind.
  destruct (future_releases_of pbr R) as [fut|e]; [|done].
  destruct fut as [|f0 fut]; [done|].
  apply foldM_ext. intros a1 pr _. unfold compare_pr. apply foldM_ext. intros a2 fr _.
  unfold compare_with_release. destruct (dict_get_default fr [] pbr) as [|p0 ps]; [done|].
  apply foldM_ext. intros a3 pf _. unfold compare_with_future. by rewrite Hext.
Qed.

(** Every comparison is built for a future release [fr], from a PR stored
    under [fr], with the slices of the older PR missing from [fr]'s inventory
    as discontinued. *)
Definition built_for (pbr : pydict UbuntuRelease (list PR)) (ns : pydict PR (gset string))
    (pkgs : pydict UbuntuRelease (gset string)) (c : Comparison) : Prop :=
  exists fr prsF, dict_get fr pbr = Some prsF /\ pr_future c ∈ prsF /\
    discontinued_slices c = slices c ∖ dict_get_default fr ∅ pkgs.

Lemma get_comparisons_built_for (vtc : gmap string string) (pbr : pydict UbuntuRelease (list PR))
    (ns : pydict PR (gset string)) (pkgs : pydict UbuntuRelease (gset string)) (cs : list Comparison) :
  get_comparisons vtc pbr ns pkgs = Ok cs -> forall c, c ∈ cs -> built_for pbr ns pkgs c.
Proof.
  set (P := fun cs : list Comparison => forall c, c ∈ cs -> built_for pbr ns pkgs c).
  assert (Hadd : forall c cs, built_for pbr ns pkgs c -> P cs -> P (set_add c cs)).
  { intros c cs' Hc Hcs c' Hc'. apply set_add_elem in Hc' as [->|Hc']; auto. }
  intros Hrun. apply (foldM_inv P _ _ _ _ Hrun); [intros c Hc; inversion Hc|].
  intros a [R prsR] a' _ Hstep Ha. unfold compare_release in Hstep. simpl in Hstep.
  unfold mbind, result_bind in Hstep.
  destruct (future_releases_of pbr R) as [fut|e]; [|discriminate].
  destruct fut as [|f0 fut]; [by injection Hstep as <-|].
  apply (foldM_inv P _ _ _ _ Hstep); [exact Ha|]. intros b pr b' _ Hpr Hb.
  apply (foldM_inv P _ _ _ _ Hpr); [exact Hb|]. intros b1 fr b1' _ Hfr Hb1.
  unfold compare_with_release in Hfr.
  destruct (dict_get_default fr [] pbr) as [|p0 ps] eqn:HprsF; [by injection Hfr as <-|].
  assert (HgetF : dict_get fr pbr = Some (p0 :: ps)).
  { unfold dict_get_default in HprsF. destruct (dict_get fr pbr); [by f_equal|discriminate]. }
  apply (foldM_inv P _ _ _ _ Hfr); [exact Hb1|]. intros b2 pf b2' Hpf Hcmp Hb2.
  unfold compare_with_future, mbind, result_bind in Hcmp.
  destruct (mk_comparison _ _ _ _ _ _) as [c|e] eqn:Hc; [|discriminate].
  injection Hcmp as <-. apply Hadd; [|exact Hb2].
  apply mk_comparison_Ok_inv in Hc as ->. exists fr, (p0 :: ps). simpl. done.
Qed.

(** C9, as stated: a missing inventory never makes [_get_comparisons] raise.
    The lookup itself raises nothing, but the engine can still raise: with no
    inventory at all and the two known releases [6.06] and [06.06], the
    comparison between their PRs raises [ValueError] in
    [Comparison.__post_init__]. *)
Lemma get_comparisons_missing_inventory_raise :
  dict_get Scenario.dapper' ([] : pydict UbuntuRelease (gset string)) = None /\
  group_prs_by_ubuntu_release Scenario.table_dup [Scenario.pr6; Scenario.pr7] [Scenario.dapper; Scenario.dapper']
    = Ok [(Scenario.dapper, [Scenario.pr6]); (Scenario.dapper', [Scenario.pr7])] /\
  get_comparisons Scenario.table_dup [(Scenario.dapper, [Scenario.pr6]); (Scenario.dapper', [Scenario.pr7])]
    [(Scenario.pr6, Scenario.foo)] [] = Err ValueError.
Proof. split; [reflexivity|split]; vm_compute; reflexivity. Qed.

(** C9 (amended): a future release [R'] with no inventory entry raises nothing
    of its own: [_get_comparisons] gives the same result, comparisons or error
    alike, as with an explicit empty inventory for [R'], and every comparison
    into [R'] counts all new slices of the older PR as discontinued.  Under the
    conditions of C4 on the partition of [_group_prs_by_ubuntu_release], it
    returns. *)
Theorem get_comparisons_missing_inventory (vtc : gmap string string) (pbr : pydict UbuntuRelease (list PR))
    (ns : pydict PR (gset string)) (pkgs : pydict UbuntuRelease (gset string)) (R' : UbuntuRelease) :
  dict_get R' pkgs = None ->
  get_comparisons vtc pbr ns pkgs = get_comparisons vtc pbr ns (dict_set R' ∅ pkgs) /\
  ((forall R s pr, dict_get R pbr = Some s -> pr ∈ s -> pr_ubuntu_release vtc pr = Ok R) ->
   forall cs c, get_comparisons vtc pbr ns pkgs = Ok cs -> c ∈ cs ->
     pr_ubuntu_release vtc (pr_future c) = Ok R' -> discontinued_slices c = slices c) /\
  (forall prs rels, group_prs_by_ubuntu_release vtc prs rels = Ok pbr ->
   (forall R, R ∈ rels -> exists t, version_tuple R = Ok t) ->
   (forall R1 R2, R1 ∈ rels -> R2 ∈ rels -> version_tuple R1 = version_tuple R2 -> R1 = R2) ->
   exists cs, get_comparisons vtc pbr ns pkgs = Ok cs /\
     forall c, c ∈ cs -> pr_ubuntu_release vtc (pr_future c) = Ok R' -> discontinued_slices c = slices c).
Proof.
  intros Hnone.
  assert (Hdisc : (forall R s pr, dict_get R pbr = Some s -> pr ∈ s -> pr_ubuntu_release vtc pr = Ok R) ->
     forall cs c, get_comparisons vtc pbr ns pkgs = Ok cs -> c ∈ cs ->
       pr_ubuntu_release vtc (pr_future c) = Ok R' -> discontinued_slices c = slices c).
  { intros Hpart cs c Hrun Hc HR'.
    destruct (get_comparisons_built_for vtc pbr ns pkgs cs Hrun c Hc) as [fr [prsF [HgetF [Hpf Hd]]]].
    pose proof (Hpart fr prsF (pr_future c) HgetF Hpf) as Hfr. rewrite HR' in Hfr. injection Hfr as <-.
    rewrite Hd. unfold dict_get_default. rewrite Hnone. set_solver. }
  split; [|split; [exact Hdisc|]].
  - apply get_comparisons_pkgs_ext. intros fr. unfold dict_get_default.
    rewrite dict_get_set. destruct (decide (fr = R')) as [->|]; [by rewrite Hnone|done].
  - intros prs rels Hg Hparse Hinj.
    destruct (group_prs_ok_partition vtc prs rels pbr Hg) as [[Hkeys Hmem] Hnd].
    assert (Hpart : forall R s pr, dict_get R pbr = Some s -> pr ∈ s -> pr_ubuntu_release vtc pr = Ok R).
    { intros R s pr Hs Hpr. by apply (Hmem R s pr Hs). }
    assert (Hparse' : forall R, R ∈ dict_keys pbr -> exists t, version_tuple R = Ok t).
    { intros R HR. apply Hparse. by apply Hkeys. }
    assert (Hinj' : forall R1 R2, R1 ∈ dict_keys pbr -> R2 ∈ dict_keys pbr ->
              version_tuple R1 = version_tuple R2 -> R1 = R2).
    { intros R1 R2 H1 H2. apply Hinj; by apply Hkeys. }
    destruct (get_comparisons_ok vtc pbr ns pkgs Hpart Hnd Hparse' Hinj') as [cs [Hrun _]].
    exists cs. split; [exact Hrun|]. intros c Hc HR'. exact (Hdisc Hpart cs c Hrun Hc HR').
Qed.

Lemma get_comparisons_missing_inventory_witness :
  get_comparisons Scenario.table Scenario.by_release Scenario.new_slices1 Scenario.pkgs_focal
    = get_comparisons Scenario.table Scenario.by_release Scenario.new_slices1
        (dict_set Scenario.noble ∅ Scenario.pkgs_focal) /\
  (forall cs c, get_comparisons Scenario.table Scenario.by_release Scenario.new_slices1 Scenario.pkgs_focal = Ok cs ->
     c ∈ cs -> pr_ubuntu_release Scenario.table (pr_future c) = Ok Scenario.noble ->
     discontinued_slices c = slices c) /\
  (exists cs, get_comparisons Scenario.table Scenario.by_release Scenario.new_slices1 Scenario.pkgs_focal = Ok cs /\
     forall c, c ∈ cs -> pr_ubuntu_release Scenario.table (pr_future c) = Ok Scenario.noble ->
       discontinued_slices c = slices c).
Proof.
  destruct (get_comparisons_missing_inventory Scenario.table Scenario.by_release Scenario.new_slices1
              Scenario.pkgs_focal Scenario.noble) as [H1 [H2 H3]].
  - vm_compute. reflexivity.
  - split; [exact H1|]. split.
    + apply H2.
      intros R s pr Hs Hpr. unfold Scenario.by_release, dict_get in Hs.
      repeat (destruct (decide _) as [->|_];
        [injection Hs as <-; apply list_elem_of_singleton in Hpr as ->; vm_compute; reflexivity|]).
      discriminate.
    + apply (H3 [Scenario.pr1; Scenario.pr2; Scenario.pr3] Scenario.releases).
      * vm_compute. reflexivity.
      * intros R HR. repeat (apply elem_of_cons in HR as [->|HR]; [eexists; vm_compute; reflexivity|]).
        inversion HR.
      * intros R1 R2 Hr1 Hr2.
        repeat (apply elem_of_cons in Hr1 as [->|Hr1]; [
          repeat (apply elem_of_cons in Hr2 as [->|Hr2]; [vm_compute; first [reflexivity|discriminate]|]);
          inversion Hr2|]).
        inversion Hr1.
Defined.

(** ** The aggregated mapping *)

(** [grouped[pr].get(R, set())], reading a missing PR as an empty dict. *)
Definition grouped_at (g : grouped) (pr : PR) (R : UbuntuRelease) : list Comparison :=
  dict_get_default R [] (dict_get_default pr [] g).

Lemma default_setdefault {K V} `{EqDecision K} (x k : K) (d : pydict K (list V)) :
  dict_get_default k [] (setdefault_empty x d) = dict_get_default k [] d.
Proof.
  unfold dict_get_default at 1. rewrite setdefault_empty_get.
  destruct (decide (k = x)) as [->|]; reflexivity.
Qed.

Lemma default_set {K V} `{EqDecision K} (x k : K) (v dflt : V) (d : pydict K V) :
  dict_get_default k dflt (dict_set x v d) = if decide (k = x) then v else dict_get_default k dflt d.
Proof. unfold dict_get_default. rewrite dict_get_set. by destruct (decide (k = x)). Qed.

Lemma group_one_at (vtc : gmap string string) (g g' : grouped) (c : Comparison) (pr0 : PR) (R0 : UbuntuRelease) :
  group_one vtc g c = Ok g' ->
  exists fr, future_ubuntu_release vtc c = Ok fr /\
    grouped_at g' pr0 R0 = if decide (pr0 = cmp_pr c /\ R0 = fr) then set_add c (grouped_at g (cmp_pr c) fr)
                           else grouped_at g pr0 R0.
Proof.
  unfold group_one, mbind, result_bind. destruct (future_ubuntu_release vtc c) as [fr|e]; [|discriminate].
  intros [= <-]. exists fr. split; [done|]. unfold grouped_at.
  rewrite default_set, default_setdefault.
  destruct (decide (pr0 = cmp_pr c)) as [->|Hne].
  - rewrite default_set, default_setdefault, default_setdefault.
    destruct (decide (R0 = fr)) as [->|HneR].
    + rewrite decide_True by done. reflexivity.
    + rewrite decide_False by naive_solver. reflexivity.
  - rewrite decide_False by naive_solver. by rewrite default_setdefault.
Qed.

(** The comparisons of [cs] for the pair [(pr, R)]. *)
Definition comparisons_for (vtc : gmap string string) (cs : list Comparison) (pr : PR) (R : UbuntuRelease)
    (c : Comparison) : Prop :=
  c ∈ cs /\ cmp_pr c = pr /\ future_ubuntu_release vtc c = Ok R.

Lemma group_loop_at (vtc : gmap string string) (l D : list Comparison) (g g' : grouped) :
  foldM (group_one vtc) l g = Ok g' ->
  (forall pr R c, c ∈ grouped_at g pr R ↔ comparisons_for vtc D pr R c) ->
  forall pr R c, c ∈ grouped_at g' pr R ↔ comparisons_for vtc (D ++ l) pr R c.
Proof.
  revert g D. induction l as [|x l IH]; intros g D Hrun Hinv; cbn [foldM] in Hrun.
  - injection Hrun as <-. by rewrite app_nil_r.
  - destruct (group_one vtc g x) as [g1|e] eqn:Hx; [|discriminate].
    rewrite cons_middle, app_assoc. apply (IH g1); [exact Hrun|].
    intros pr R c. destruct (group_one_at vtc g g1 x pr R Hx) as [fr [Hfr ->]].
    unfold comparisons_for. rewrite elem_of_app, list_elem_of_singleton.
    destruct (decide (pr = cmp_pr x /\ R = fr)) as [[-> ->]|Hne].
    + rewrite set_add_elem, Hinv. unfold comparisons_for. naive_solver.
    + rewrite Hinv. unfold comparisons_for. split; [naive_solver|].
      intros [[Hc | ->] [Hpr HR]]; [done|]. exfalso. apply Hne. split; [done|]. congruence.
Qed.

Lemma default_foldl_setdefault {K V} `{EqDecision K} (l : list K) (k : K) (d : pydict K (list V)) :
  dict_get_default k [] (foldl (fun d r => setdefault_empty r d) d l) = dict_get_default k [] d.
Proof.
  revert d. induction l as [|x l IH]; intros d; cbn [foldl]; [done|]. by rewrite IH, default_setdefault.
Qed.

Lemma add_missing_prs_get (pbr : pydict UbuntuRelease (list PR)) (g : grouped) (pr : PR) :
  dict_get pr (add_missing_prs pbr g) =
    if decide (pr ∈ concat (map snd pbr)) then Some (dict_get_default pr [] g) else dict_get pr g.
Proof.
  unfold add_missing_prs. revert g. induction pbr as [|[R s] pbr IH]; intros g; cbn [foldl].
  - case_decide as H; [inversion H|done].
  - rewrite IH. cbn [snd map concat]. rewrite default_foldl_setdefault, (setdefault_foldl_get s pr g).
    destruct (decide (pr ∈ concat (map snd pbr))) as [H1|H1].
    + rewrite decide_True by (apply elem_of_app; auto). reflexivity.
    + destruct (decide (pr ∈ s)) as [H2|H2].
      * rewrite decide_True by (apply elem_of_app; auto). reflexivity.
      * rewrite decide_False by (rewrite elem_of_app; naive_solver). reflexivity.
Qed.

Lemma elem_of_concat_snd {A B} (L : list (A * list B)) (a : A) (s : list B) (x : B) :
  (a, s) ∈ L -> x ∈ s -> x ∈ concat (map snd L).
Proof.
  induction L as [|[a' s'] L IH]; intros HL Hx; [inversion HL|]. cbn [map concat snd].
  apply elem_of_app. apply elem_of_cons in HL as [[= -> ->]|HL]; [by left|right; auto].
Qed.

Lemma mapR_get {K V W} `{EqDecision K} (f : K * V -> result (K * W)) (d : pydict K V) (d' : pydict K W)
    (k : K) (v : V) :
  mapR f d = Ok d' -> (forall e e', f e = Ok e' -> e'.1 = e.1) -> dict_get k d = Some v ->
  exists w, f (k, v) = Ok (k, w) /\ dict_get k d' = Some w.
Proof.
  revert d'. induction d as [|[k0 v0] d IH]; intros d' Hrun Hkey Hget; [discriminate|].
  cbn [mapR] in Hrun. destruct (f (k0, v0)) as [[k1 w0]|e] eqn:Hf; [|discriminate].
  destruct (mapR f d) as [d1|e] eqn:Hd; [|discriminate]. injection Hrun as <-.
  pose proof (Hkey _ _ Hf) as Hk1. simpl in Hk1. subst k1.
  simpl in Hget. simpl. destruct (decide (k = k0)) as [->|Hne].
  - injection Hget as <-. by exists w0.
  - by apply IH.
Qed.

Lemma filterM_Ok_elem {A} (p : A -> result bool) (l ys : list A) (y : A) :
  filterM p l = Ok ys -> y ∈ l -> p y = Ok true -> y ∈ ys.
Proof.
  revert ys. induction l as [|x l IH]; intros ys Hrun Hy Hp; [inversion Hy|].
  cbn [filterM] in Hrun. destruct (p x) as [b|e] eqn:Hx; [|discriminate].
  destruct (filterM p l) as [zs|e] eqn:Hl; [|discriminate]. injection Hrun as <-.
  apply elem_of_cons in Hy as [->|Hy].
  - rewrite Hp in Hx. injection Hx as <-. constructor.
  - destruct b; [right|]; by apply IH.
Qed.

(** C5: in the mapping returned by [_get_grouped_comparisons], every PR of the
    partition is a key, and under it every known release later than the PR's
    release is a key, bound to exactly the comparisons of that pair (an empty
    set when there is none). *)
Theorem grouped_comparisons_future_keys (vtc : gmap string string) (pbr : pydict UbuntuRelease (list PR))
    (ns : pydict PR (gset string)) (pkgs : pydict UbuntuRelease (gset string)) (cs : list Comparison)
    (g : grouped) (R0 : UbuntuRelease) (s : list PR) (pr : PR) (R R' : UbuntuRelease) :
  get_comparisons vtc pbr ns pkgs = Ok cs ->
  get_grouped_comparisons vtc pbr ns pkgs = Ok g ->
  (R0, s) ∈ pbr -> pr ∈ s ->
  pr_ubuntu_release vtc pr = Ok R ->
  R' ∈ dict_keys pbr -> release_gt R' R = Ok true ->
  exists inner comps, dict_get pr g = Some inner /\ dict_get R' inner = Some comps /\
    forall c, c ∈ comps ↔ comparisons_for vtc cs pr R' c.
Proof.
  intros Hcs Hg Hentry Hpr HR HR' Hgt.
  unfold get_grouped_comparisons, mbind at 1, result_bind at 1 in Hg. rewrite Hcs in Hg.
  unfold mbind, result_bind in Hg.
  destruct (foldM (group_one vtc) cs []) as [g1|e] eqn:H1; [|discriminate].
  assert (Hg2 : dict_get pr (add_missing_prs pbr g1) = Some (dict_get_default pr [] g1)).
  { rewrite add_missing_prs_get. rewrite decide_True; [done|]. by apply (elem_of_concat_snd _ R0 s). }
  destruct (mapR_get _ _ _ pr (dict_get_default pr [] g1) Hg) as [w [Hfill Hgw]]; [|exact Hg2|].
  { intros [k v] e' He'. unfold fill_future, mbind, result_bind in He'. simpl in He'.
    destruct (pr_ubuntu_release vtc k) as [rk|e]; [|cbn in He'; discriminate].
    destruct (future_releases_of pbr rk); cbn in He'; [|discriminate]. by injection He' as <-. }
  unfold fill_future, mbind, result_bind in Hfill. simpl in Hfill. rewrite HR in Hfill.
  destruct (future_releases_of pbr R) as [fut|e] eqn:Hfut; cbn in Hfill; [|discriminate].
  injection Hfill as <-.
  exists (foldl (fun inner r => setdefault_empty r inner) (dict_get_default pr [] g1) fut).
  exists (grouped_at g1 pr R').
  split; [exact Hgw|]. split.
  - rewrite setdefault_foldl_get, decide_True; [reflexivity|].
    by apply (filterM_Ok_elem _ _ _ _ Hfut).
  - intros c. rewrite (group_loop_at vtc cs [] [] g1 H1); [reflexivity|].
    intros pr1 R1 c1. unfold grouped_at, dict_get_default. simpl.
    split; [intros Hc1; inversion Hc1|intros [Hc1 _]; inversion Hc1].
Qed.

Lemma grouped_comparisons_future_keys_witness :
  exists inner comps,
    get_grouped_comparisons Scenario.table Scenario.by_release Scenario.new_slices1 Scenario.pkgs_focal
      = get_grouped_comparisons Scenario.table Scenario.by_release Scenario.new_slices1 Scenario.pkgs_focal /\
    dict_get Scenario.pr1 (match get_grouped_comparisons Scenario.table Scenario.by_release Scenario.new_slices1
                                   Scenario.pkgs_focal with Ok g => g | Err _ => [] end) = Some inner /\
    dict_get Scenario.noble inner = Some comps /\
    forall c, c ∈ comps ↔ comparisons_for Scenario.table
                (match get_comparisons Scenario.table Scenario.by_release Scenario.new_slices1 Scenario.pkgs_focal
                 with Ok cs => cs | Err _ => [] end) Scenario.pr1 Scenario.noble c.
Proof.
  destruct (grouped_comparisons_future_keys Scenario.table Scenario.by_release Scenario.new_slices1
              Scenario.pkgs_focal
              (match get_comparisons Scenario.table Scenario.by_release Scenario.new_slices1 Scenario.pkgs_focal
               with Ok cs => cs | Err _ => [] end)
              (match get_grouped_comparisons Scenario.table Scenario.by_release Scenario.new_slices1
                       Scenario.pkgs_focal with Ok g => g | Err _ => [] end)
              Scenario.focal [Scenario.pr1] Scenario.pr1 Scenario.focal Scenario.noble)
    as [inner [comps [H1 [H2 H3]]]].
  - vm_compute. reflexivity.
  - vm_compute. reflexivity.
  - left.
  - left.
  - vm_compute. reflexivity.
  - right. right. left.
  - vm_compute. reflexivity.
  - exists inner, comps. split; [reflexivity|]. auto.
Defined.

(** ** The discontinuation exemption with no PR into the future release *)

(** C1, as the code computes it: for a PR with new slices, a future release
    bound to an empty list of comparisons makes [forward_porting_status]
    false, whatever that release's inventory: [any] over an empty set is
    [False]. When no PR targets a future release, [_get_comparisons] builds
    no comparison for it, and the aggregated mapping binds it to an empty set. *)
Theorem forward_porting_status_empty_future (sl : gset string)
    (by_future : pydict UbuntuRelease (list Comparison)) (R' : UbuntuRelease) :
  sl ≠ ∅ -> (R', []) ∈ by_future -> forward_porting_status sl by_future = false.
Proof.
  intros Hsl HR'. unfold forward_porting_status. rewrite decide_False by done.
  apply not_true_iff_false. intros Hall. apply forallb_forall with (x := (R', [])) in Hall.
  - discriminate.
  - by apply list_elem_of_In.
Qed.

Lemma forward_porting_status_empty_future_witness :
  Scenario.foo ≠ ∅ /\ forward_porting_status Scenario.foo [(Scenario.jammy, []); (Scenario.noble, [])] = false.
Proof.
  assert (Hfoo : Scenario.foo ≠ ∅) by (unfold Scenario.foo; set_solver).
  split; [exact Hfoo|]. apply (forward_porting_status_empty_future _ _ Scenario.jammy Hfoo). left.
Defined.

(** C1, concrete scenario 3: PR #1 into [ubuntu-20.04] adds [foo]; the known
    releases are 20.04, 22.04 and 24.04; [foo] is in the 20.04 inventory only;
    no other PR is open. The verdict for #1 is [false]. *)
Lemma scenario3_not_forward_ported :
  forward_port_verdicts Scenario.table Scenario.releases [Scenario.pr1]
    [(Scenario.pr1, Scenario.foo)] [(Scenario.pr1, ∅)]
    [(Scenario.focal, Scenario.pkgs_all); (Scenario.jammy, Scenario.pkgs_no_foo);
     (Scenario.noble, Scenario.pkgs_no_foo)]
  = Ok [(1%Z, false)].
Proof. vm_compute. reflexivity. Qed.

(** ** Further properties of the code *)

(** X1: [Comparison.is_forward_ported] holds exactly when every new slice of the
    PR is a new slice of the future PR or a discontinued slice. *)
Theorem is_forward_ported_iff (c : Comparison) :
  is_forward_ported c = true ↔ slices c ⊆ slices_future c ∪ discontinued_slices c.
Proof.
  unfold is_forward_ported. rewrite bool_decide_eq_true. split.
  - intros Hm x Hx. destruct (decide (x ∈ slices_future c ∪ discontinued_slices c)) as [|Hn]; [done|].
    exfalso. assert (Hin : x ∈ missing_slices c) by (apply missing_slices_elem; set_solver).
    rewrite Hm in Hin. set_solver.
  - intros Hsub. apply set_eq. intros x. rewrite missing_slices_elem. set_solver.
Qed.

Lemma prefix_app (p s : string) : String.prefix p (p ++ s) = true.
Proof. induction p as [|a p IH]; [by destruct s|]. simpl. destruct (ascii_dec a a); [exact IH|done]. Qed.

Lemma prefix_inv (p b : string) : String.prefix p b = true -> exists v, b = p ++ v.
Proof.
  revert b. induction p as [|a p IH]; intros b Hp; [by exists b|].
  destruct b as [|a' b]; simpl in Hp; [discriminate|].
  destruct (ascii_dec a a') as [<-|]; [|discriminate].
  destruct (IH b Hp) as [v ->]. by exists v.
Qed.

Lemma from_branch_name_prefixed (vtc : gmap string string) (v : string) :
  from_branch_name vtc (ubuntu_prefix ++ v) =
    match vtc !! v with Some cn => Ok (mkRelease v cn) | None => Err ValueError end.
Proof. unfold from_branch_name. rewrite prefix_app. reflexivity. Qed.

Lemma forallb_false_elem {A} (f : A -> bool) (l : list A) :
  forallb f l = false -> exists x, x ∈ l /\ f x = false.
Proof.
  induction l as [|x l IH]; simpl; [discriminate|]. intros H.
  destruct (f x) eqn:Hx; simpl in H.
  - destruct (IH H) as [y [Hy Hfy]]. exists y. split; [by right|done].
  - exists x. split; [constructor|done].
Qed.

Lemma same_keys_spec {K V W} `{EqDecision K} (a : pydict K V) (b : pydict K W) :
  same_keys a b = true ↔ forall k, k ∈ dict_keys a ↔ k ∈ dict_keys b.
Proof.
  unfold same_keys. rewrite andb_true_iff, !forallb_forall. split.
  - intros [H1 H2] k. split; intros Hk.
    + apply (bool_decide_eq_true_1 _), H1. by apply list_elem_of_In.
    + apply (bool_decide_eq_true_1 _), H2. by apply list_elem_of_In.
  - intros H. split; intros k Hk; apply bool_decide_eq_true; apply list_elem_of_In in Hk; naive_solver.
Qed.

Lemma split_on_nonempty (sep : ascii) (s : string) : split_on sep s ≠ [].
Proof. destruct s as [|c s]; simpl; [done|]. destruct (Ascii.eqb c sep); [done|]. by destruct (split_on sep s). Qed.

Lemma split_on_one (sep : ascii) (s b : string) : split_on sep s = [b] -> s = b.
Proof.
  revert b. induction s as [|c s IH]; intros b H; simpl in H; [by injection H|].
  destruct (Ascii.eqb c sep).
  - injection H as _ H. by destruct (split_on_nonempty sep s).
  - destruct (split_on sep s) as [|w ws] eqn:Hs; [by destruct (split_on_nonempty sep s)|].
    injection H as <- ->. by rewrite (IH w).
Qed.

Lemma split_on_two (sep : ascii) (s a b : string) : split_on sep s = [a; b] -> s = a ++ String sep b.
Proof.
  revert a. induction s as [|c s IH]; intros a H; simpl in H; [discriminate|].
  destruct (Ascii.eqb c sep) eqn:Hc.
  - apply Ascii.eqb_eq in Hc as ->. injection H as <- H. simpl. by rewrite (split_on_one _ _ _ H).
  - destruct (split_on sep s) as [|w ws] eqn:Hs; [by destruct (split_on_nonempty sep s)|].
    injection H as <- ->. simpl. by rewrite (IH w).
Qed.

Lemma split_on_app (sep : ascii) (y m : string) :
  split_on sep y = [y] -> split_on sep (y ++ String sep m) = y :: split_on sep m.
Proof.
  induction y as [|c y IH]; intros H; simpl.
  - by rewrite Ascii.eqb_refl.
  - simpl in H. destruct (Ascii.eqb c sep) eqn:Hc.
    + injection H as _ H. by destruct (split_on_nonempty sep y).
    + destruct (split_on sep y) as [|w ws] eqn:Hs; [by destruct (split_on_nonempty sep y)|].
      injection H as Hw ->. subst w. by rewrite IH.
Qed.

Definition not_dot (c : ascii) : bool := negb (Ascii.eqb c ".").

Lemma str_forall_not_dot (s : string) : str_forall not_dot s = true -> split_on "." s = [s].
Proof.
  induction s as [|c s IH]; [done|]. simpl. intros H. apply andb_prop in H as [Hc Hs].
  unfold not_dot in Hc. apply negb_true_iff in Hc. rewrite Hc. by rewrite (IH Hs).
Qed.

Lemma int_space_not_dot (c : ascii) : int_space c = true -> not_dot c = true.
Proof. intros H. unfold not_dot. destruct (Ascii.eqb c ".") eqn:E; [|done]. by apply Ascii.eqb_eq in E as ->. Qed.

Lemma skip_int_space_not_dot (s : string) :
  str_forall not_dot (skip_int_space s) = true -> str_forall not_dot s = true.
Proof.
  induction s as [|c s IH]; [done|]. simpl. destruct (int_space c) eqn:Hc; [|done].
  intros H. by rewrite (int_space_not_dot c Hc), (IH H).
Qed.

Lemma int_scan_not_dot (s : string) (b : bool) (acc : Z) (nd : nat) (v : Z) (n : nat) (l : bool) (rest : string) :
  int_scan s b acc nd = Some (v, n, l, rest) -> str_forall not_dot rest = true -> str_forall not_dot s = true.
Proof.
  revert b acc nd. induction s as [|c s IH]; intros b acc nd; [done|]. simpl.
  destruct (digit_val c) as [d|] eqn:Hd.
  - intros H Hr. rewrite (IH _ _ _ H Hr), andb_true_r. unfold not_dot.
    destruct (Ascii.eqb c ".") eqn:E; [|done]. apply Ascii.eqb_eq in E as ->. discriminate.
  - destruct (Ascii.eqb c "_") eqn:Hu.
    + apply Ascii.eqb_eq in Hu as ->. destruct b; [discriminate|]. intros H Hr. by rewrite (IH _ _ _ H Hr).
    + intros [= <- <- <- <-] Hr. exact Hr.
Qed.

Lemma py_int_chars (s : string) (z : Z) : py_int s = Ok z -> str_forall not_dot s = true.
Proof.
  unfold py_int. intros H. apply skip_int_space_not_dot.
  destruct (skip_int_space s) as [|c r] eqn:Hs1; [done|].
  destruct (if Ascii.eqb c "+" then (false, r) else if Ascii.eqb c "-" then (true, r) else (false, String c r))
    as [neg s2] eqn:Hns.
  assert (Hs2 : s2 = String c r \/ (s2 = r /\ not_dot c = true)).
  { revert Hns. destruct (Ascii.eqb c "+") eqn:E1; [apply Ascii.eqb_eq in E1 as ->; intros [= _ <-]; by right|].
    destruct (Ascii.eqb c "-") eqn:E2; [apply Ascii.eqb_eq in E2 as ->; intros [= _ <-]; by right|].
    intros [= _ <-]. by left. }
  enough (H2 : str_forall not_dot s2 = true).
  { destruct Hs2 as [->|[-> Hc]]; [done|]. simpl. by rewrite Hc, H2. }
  destruct s2 as [|c2 r2]; [discriminate|]. destruct (Ascii.eqb c2 "_"); [discriminate|].
  destruct (int_scan _ false 0 0) as [[[[v n] l] rest]|] eqn:Hscan; [|discriminate].
  destruct (l || (n =? 0)%nat); [discriminate|].
  apply (int_scan_not_dot _ _ _ _ _ _ _ _ Hscan). apply skip_int_space_not_dot.
  destruct (skip_int_space rest); [done|discriminate].
Qed.

Lemma py_int_no_dot (s : string) (z : Z) : py_int s = Ok z -> split_on "." s = [s].
Proof. intros H. by apply str_forall_not_dot, (py_int_chars s z). Qed.

(** X4: [UbuntuRelease.version_tuple] returns [(y, m)] exactly when the version is
    [ys.ms] with [int(ys) = y] and [int(ms) = m]. *)
Theorem version_tuple_spec (r : UbuntuRelease) (y m : Z) :
  version_tuple r = Ok (y, m) ↔
    exists ys ms, version r = ys ++ "." ++ ms /\ py_int ys = Ok y /\ py_int ms = Ok m.
Proof.
  unfold version_tuple, mbind, result_bind. split.
  - destruct (split_on "." (version r)) as [|ys [|ms [|? ?]]] eqn:Hs; try discriminate.
    destruct (py_int ys) as [y'|] eqn:Hy; [|discriminate].
    destruct (py_int ms) as [m'|] eqn:Hm; [|discriminate].
    intros [= <- <-]. exists ys, ms. split; [|done]. by apply split_on_two.
  - intros [ys [ms [Hv [Hy Hm]]]]. rewrite Hv. simpl.
    replace ("." ++ ms) with (String "."%char ms) by reflexivity.
    rewrite (split_on_app _ _ _ (py_int_no_dot _ _ Hy)), (py_int_no_dot _ _ Hm), Hy, Hm. reflexivity.
Qed.

(** X5: Under [functools.total_ordering], [a > b] agrees with [b < a] when the two
    version tuples parse and differ. *)
Theorem release_gt_flip (a b : UbuntuRelease) (ta tb : Z * Z) :
  version_tuple a = Ok ta -> version_tuple b = Ok tb -> ta ≠ tb -> release_gt a b = release_lt b a.
Proof.
  intros Ha Hb Hne. unfold release_gt, release_lt. rewrite Ha, Hb. cbn.
  destruct (tuple_lt ta tb) eqn:Hab; simpl.
  - f_equal. symmetry. apply not_true_iff_false. intros Hba.
    apply tuple_lt_iff in Hab, Hba. lia.
  - rewrite (tuple_lt_flip _ _ Hab Hne). rewrite bool_decide_eq_true_2; [done|].
    intros ->. congruence.
Qed.

Lemma foldM_mono {A C} (f : list C -> A -> result (list C)) (l : list A) (acc acc' : list C) :
  foldM f l acc = Ok acc' ->
  (forall a x a', f a x = Ok a' -> forall y, y ∈ a -> y ∈ a') ->
  forall y, y ∈ acc -> y ∈ acc'.
Proof.
  revert acc. induction l as [|x l IH]; intros acc Hrun Hf y Hy; cbn [foldM] in Hrun.
  - by injection Hrun as <-.
  - destruct (f acc x) as [a1|e] eqn:Hx; [|discriminate]. apply (IH a1); [done|done|]. by apply (Hf acc x).
Qed.

Lemma foldM_visit {A C} (f : list C -> A -> result (list C)) (l : list A) (acc acc' : list C) (x : A) :
  foldM f l acc = Ok acc' ->
  (forall a x a', f a x = Ok a' -> forall y, y ∈ a -> y ∈ a') ->
  x ∈ l -> exists a a', f a x = Ok a' /\ forall y, y ∈ a' -> y ∈ acc'.
Proof.
  revert acc. induction l as [|x0 l IH]; intros acc Hrun Hf Hx; [inversion Hx|]. cbn [foldM] in Hrun.
  destruct (f acc x0) as [a1|e] eqn:Hx0; [|discriminate].
  apply elem_of_cons in Hx as [->|Hx].
  - exists acc, a1. split; [done|]. by apply (foldM_mono f l).
  - by apply (IH a1).
Qed.

Lemma filterM_Ok_inv {A} (p : A -> result bool) (l ys : list A) (y : A) :
  filterM p l = Ok ys -> y ∈ ys -> y ∈ l /\ p y = Ok true.
Proof.
  revert ys. induction l as [|x l IH]; intros ys Hrun Hy; cbn [filterM] in Hrun.
  - injection Hrun as <-. inversion Hy.
  - destruct (p x) as [b|e] eqn:Hx; [|discriminate].
    destruct (filterM p l) as [zs|e] eqn:Hl; [|discriminate]. injection Hrun as <-.
    destruct b.
    + apply elem_of_cons in Hy as [->|Hy]; [split; [constructor|done]|].
      destruct (IH zs eq_refl Hy). split; [by right|done].
    + destruct (IH zs eq_refl Hy). split; [by right|done].
Qed.

Section EngineMono.
Variable vtc : gmap string string.
Variable pbr : pydict UbuntuRelease (list PR).
Variable ns : pydict PR (gset string).
Variable pkgs : pydict UbuntuRelease (gset string).

Lemma compare_with_future_mono pr sl fr a pf a' :
  compare_with_future vtc ns pkgs pr sl fr a pf = Ok a' -> forall y, y ∈ a -> y ∈ a'.
Proof.
  unfold compare_with_future, mbind, result_bind. destruct (mk_comparison _ _ _ _ _ _); [|discriminate].
  intros [= <-] y Hy. apply set_add_elem. by right.
Qed.

Lemma compare_with_release_mono pr sl a fr a' :
  compare_with_release vtc pbr ns pkgs pr sl a fr = Ok a' -> forall y, y ∈ a -> y ∈ a'.
Proof.
  unfold compare_with_release. cbv zeta. rewrite foldM_guard. intros H. apply (foldM_mono _ _ _ _ H).
  intros ? ? ?. apply compare_with_future_mono.
Qed.

Lemma compare_pr_mono fut a pr a' :
  compare_pr vtc pbr ns pkgs fut a pr = Ok a' -> forall y, y ∈ a -> y ∈ a'.
Proof.
  unfold compare_pr. intros H. apply (foldM_mono _ _ _ _ H). intros ? ? ?. apply compare_with_release_mono.
Qed.

Lemma compare_release_mono a e a' :
  compare_release vtc pbr ns pkgs a e = Ok a' -> forall y, y ∈ a -> y ∈ a'.
Proof.
  unfold compare_release, mbind, result_bind. destruct (future_releases_of pbr e.1) as [fut|]; [|discriminate].
  cbv beta iota. destruct fut as [|f0 fut]; [by intros [= <-]|].
  intros H. apply (foldM_mono _ _ _ _ H). intros ? ? ?. apply compare_pr_mono.
Qed.
End EngineMono.

Lemma get_comparisons_sound (vtc : gmap string string) (pbr : pydict UbuntuRelease (list PR))
    (ns : pydict PR (gset string)) (pkgs : pydict UbuntuRelease (gset string)) (cs : list Comparison) :
  get_comparisons vtc pbr ns pkgs = Ok cs ->
  forall c, c ∈ cs -> exists R s R' s', (R, s) ∈ pbr /\ cmp_pr c ∈ s /\
    dict_get R' pbr = Some s' /\ pr_future c ∈ s' /\ release_gt R' R = Ok true /\
    c = mkComparison (cmp_pr c) (dict_get_default (cmp_pr c) ∅ ns) (pr_future c)
          (dict_get_default (pr_future c) ∅ ns) (dict_get_default (cmp_pr c) ∅ ns ∖ dict_get_default R' ∅ pkgs).
Proof.
  intros Hrun.
  set (P := fun cs : list Comparison => forall c, c ∈ cs -> exists R s R' s', (R, s) ∈ pbr /\ cmp_pr c ∈ s /\
    dict_get R' pbr = Some s' /\ pr_future c ∈ s' /\ release_gt R' R = Ok true /\
    c = mkComparison (cmp_pr c) (dict_get_default (cmp_pr c) ∅ ns) (pr_future c)
        (dict_get_default (pr_future c) ∅ ns) (dict_get_default (cmp_pr c) ∅ ns ∖ dict_get_default R' ∅ pkgs)).
  change (P cs).
  apply (foldM_inv P _ _ _ _ Hrun); [intros c Hc; inversion Hc|].
  intros a [R prsR] a' Hentry Hstep Ha. unfold compare_release in Hstep. simpl in Hstep.
  unfold mbind, result_bind in Hstep.
  destruct (future_releases_of pbr R) as [fut|e] eqn:Hfut; [|discriminate].
  cbv beta iota in Hstep. destruct fut as [|f0 fut]; [by injection Hstep as <-|].
  apply (foldM_inv P _ _ _ _ Hstep); [exact Ha|]. intros b pr b' Hpr Hcp Hb.
  apply (foldM_inv P _ _ _ _ Hcp); [exact Hb|]. intros b1 fr b1' Hfr Hcr Hb1.
  destruct (filterM_Ok_inv _ _ _ _ Hfut Hfr) as [_ Hgt].
  unfold compare_with_release in Hcr. cbv zeta in Hcr.
  destruct (dict_get_default fr [] pbr) as [|p0 ps] eqn:HprsF; [by injection Hcr as <-|].
  assert (HgetF : dict_get fr pbr = Some (p0 :: ps)).
  { unfold dict_get_default in HprsF. destruct (dict_get fr pbr); [by f_equal|discriminate]. }
  apply (foldM_inv P _ _ _ _ Hcr); [exact Hb1|]. intros b2 pf b2' Hpf Hcmp Hb2.
  unfold compare_with_future, mbind, result_bind in Hcmp.
  destruct (mk_comparison _ _ _ _ _ _) as [c0|e] eqn:Hc; [|discriminate].
  injection Hcmp as <-. intros c' Hc'. apply set_add_elem in Hc' as [->|Hc']; [|by apply Hb2].
  apply mk_comparison_Ok_inv in Hc as ->. exists R, prsR, fr, (p0 :: ps). simpl. done.
Qed.

Lemma get_comparisons_complete (vtc : gmap string string) (pbr : pydict UbuntuRelease (list PR))
    (ns : pydict PR (gset string)) (pkgs : pydict UbuntuRelease (gset string)) (cs : list Comparison) :
  get_comparisons vtc pbr ns pkgs = Ok cs ->
  forall c, (exists R s R' s', (R, s) ∈ pbr /\ cmp_pr c ∈ s /\
    dict_get R' pbr = Some s' /\ pr_future c ∈ s' /\ release_gt R' R = Ok true /\
    c = mkComparison (cmp_pr c) (dict_get_default (cmp_pr c) ∅ ns) (pr_future c)
          (dict_get_default (pr_future c) ∅ ns) (dict_get_default (cmp_pr c) ∅ ns ∖ dict_get_default R' ∅ pkgs)) -> c ∈ cs.
Proof.
  intros Hrun c.
  intros (R & s & R' & s' & Hentry & Hpr & HgetF & Hpf & Hgt & Hc).
  destruct (foldM_visit _ _ _ _ _ Hrun (compare_release_mono vtc pbr ns pkgs) Hentry)
    as [a [a' [Hstep Ha']]]. apply Ha'.
  unfold compare_release in Hstep. simpl in Hstep. unfold mbind, result_bind in Hstep.
  destruct (future_releases_of pbr R) as [fut|e] eqn:Hfut; [|discriminate].
  assert (HR' : R' ∈ fut).
  { apply (filterM_Ok_elem _ _ _ _ Hfut); [|exact Hgt]. apply dict_get_Some_keys. by eexists. }
  cbv beta iota in Hstep. destruct fut as [|f0 fut]; [inversion HR'|].
  destruct (foldM_visit _ _ _ _ _ Hstep (compare_pr_mono vtc pbr ns pkgs _) Hpr)
    as [b [b' [Hcp Hb']]]. apply Hb'.
  destruct (foldM_visit _ _ _ _ _ Hcp (compare_with_release_mono vtc pbr ns pkgs (cmp_pr c) _) HR')
    as [b1 [b1' [Hcr Hb1']]]. apply Hb1'.
  unfold compare_with_release in Hcr. cbv zeta in Hcr.
  replace (dict_get_default R' [] pbr) with s' in Hcr by (unfold dict_get_default; by rewrite HgetF).
  rewrite foldM_guard in Hcr.
  destruct (foldM_visit _ _ _ _ _ Hcr (compare_with_future_mono vtc ns pkgs (cmp_pr c) _ R') Hpf)
    as [b2 [b2' [Hcw Hb2']]]. apply Hb2'.
  unfold compare_with_future, mbind, result_bind in Hcw.
  destruct (mk_comparison _ _ _ _ _ _) as [c0|e] eqn:Hc0; [|discriminate].
  injection Hcw as <-. apply mk_comparison_Ok_inv in Hc0. apply set_add_elem. left.
  rewrite Hc0, Hc. reflexivity.
Qed.

(** X6: [_get_comparisons], when it returns, holds exactly one comparison per
    PR [pr] of the partition and PR [pf] stored under a later known release [R']
    (by [>]), carrying the two PRs' new slices and, as discontinued, the new
    slices of [pr] missing from [R']'s inventory. *)
Theorem get_comparisons_exact (vtc : gmap string string) (pbr : pydict UbuntuRelease (list PR))
    (ns : pydict PR (gset string)) (pkgs : pydict UbuntuRelease (gset string)) (cs : list Comparison) :
  get_comparisons vtc pbr ns pkgs = Ok cs ->
  forall c, c ∈ cs ↔ exists R s R' s', (R, s) ∈ pbr /\ cmp_pr c ∈ s /\
    dict_get R' pbr = Some s' /\ pr_future c ∈ s' /\ release_gt R' R = Ok true /\
    c = mkComparison (cmp_pr c) (dict_get_default (cmp_pr c) ∅ ns) (pr_future c)
          (dict_get_default (pr_future c) ∅ ns) (dict_get_default (cmp_pr c) ∅ ns ∖ dict_get_default R' ∅ pkgs).
Proof.
  intros Hrun c. split; [apply (get_comparisons_sound vtc pbr ns pkgs cs Hrun) | apply (get_comparisons_complete vtc pbr ns pkgs cs Hrun)].
Qed.

Lemma setdefault_keys {K V} `{EqDecision K} (x k : K) (d : pydict K (list V)) :
  k ∈ dict_keys (setdefault_empty x d) ↔ k = x \/ k ∈ dict_keys d.
Proof.
  rewrite <- !dict_get_Some_keys, setdefault_empty_get.
  destruct (decide (k = x)) as [->|]; naive_solver.
Qed.

Lemma setdefault_foldl_keys {K V} `{EqDecision K} (l : list K) (k : K) (d : pydict K (list V)) :
  k ∈ dict_keys (foldl (fun d r => setdefault_empty r d) d l) ↔ k ∈ l \/ k ∈ dict_keys d.
Proof.
  rewrite <- !dict_get_Some_keys, setdefault_foldl_get.
  destruct (decide (k ∈ l)); naive_solver.
Qed.

Lemma mapR_keys {K V W} `{EqDecision K} (f : K * V -> result (K * W)) (d : pydict K V) (d' : pydict K W) :
  mapR f d = Ok d' -> (forall e e', f e = Ok e' -> e'.1 = e.1) -> dict_keys d' = dict_keys d.
Proof.
  revert d'. induction d as [|[k0 v0] d IH]; intros d' Hrun Hkey; cbn [mapR] in Hrun.
  - by injection Hrun as <-.
  - destruct (f (k0, v0)) as [[k1 w0]|e] eqn:Hf; [|discriminate].
    destruct (mapR f d) as [d1|e] eqn:Hd; [|discriminate]. injection Hrun as <-.
    pose proof (Hkey _ _ Hf) as Hk1. simpl in Hk1. subst k1. simpl. f_equal. by apply IH.
Qed.

Lemma mapR_get_inv {K V W} `{EqDecision K} (f : K * V -> result (K * W)) (d : pydict K V) (d' : pydict K W)
    (k : K) (w : W) :
  mapR f d = Ok d' -> (forall e e', f e = Ok e' -> e'.1 = e.1) -> dict_get k d' = Some w ->
  exists v, dict_get k d = Some v /\ f (k, v) = Ok (k, w).
Proof.
  revert d'. induction d as [|[k0 v0] d IH]; intros d' Hrun Hkey Hget; cbn [mapR] in Hrun.
  - injection Hrun as <-. discriminate.
  - destruct (f (k0, v0)) as [[k1 w0]|e] eqn:Hf; [|discriminate].
    destruct (mapR f d) as [d1|e] eqn:Hd; [|discriminate]. injection Hrun as <-.
    pose proof (Hkey _ _ Hf) as Hk1. simpl in Hk1. subst k1.
    simpl in Hget. simpl. destruct (decide (k = k0)) as [->|Hne].
    + injection Hget as <-. by exists v0.
    + by apply (IH d1).
Qed.

Lemma fill_future_key (vtc : gmap string string) (pbr : pydict UbuntuRelease (list PR))
    (e e' : PR * pydict UbuntuRelease (list Comparison)) :
  fill_future vtc pbr e = Ok e' -> e'.1 = e.1.
Proof.
  destruct e as [k v]. unfold fill_future, mbind, result_bind. simpl.
  destruct (pr_ubuntu_release vtc k) as [rk|]; [|discriminate].
  destruct (future_releases_of pbr rk); cbn; [|discriminate]. by intros [= <-].
Qed.

Lemma group_one_keys (vtc : gmap string string) (g g' : grouped) (c : Comparison) (pr : PR) :
  group_one vtc g c = Ok g' -> pr ∈ dict_keys g' ↔ pr = cmp_pr c \/ pr ∈ dict_keys g.
Proof.
  unfold group_one, mbind, result_bind. destruct (future_ubuntu_release vtc c) as [fr|]; [|discriminate].
  intros [= <-]. cbv zeta. rewrite dict_set_keys, (setdefault_keys (V := UbuntuRelease * list Comparison)). naive_solver.
Qed.

Lemma group_one_inner_keys (vtc : gmap string string) (g g' : grouped) (c : Comparison) (pr : PR) (R : UbuntuRelease) :
  group_one vtc g c = Ok g' ->
  R ∈ dict_keys (dict_get_default pr [] g') ↔
    (pr = cmp_pr c /\ future_ubuntu_release vtc c = Ok R) \/ R ∈ dict_keys (dict_get_default pr [] g).
Proof.
  unfold group_one, mbind, result_bind. destruct (future_ubuntu_release vtc c) as [fr|] eqn:Hfr; [|discriminate].
  intros [= <-]. cbv zeta. rewrite default_set. destruct (decide (pr = cmp_pr c)) as [->|Hne].
  - rewrite dict_set_keys, setdefault_keys, default_setdefault. naive_solver.
  - rewrite default_setdefault. naive_solver.
Qed.

Lemma group_loop_keys (vtc : gmap string string) (l : list Comparison) (g g' : grouped) :
  foldM (group_one vtc) l g = Ok g' ->
  (forall pr, pr ∈ dict_keys g' ↔ pr ∈ dict_keys g \/ exists c, c ∈ l /\ cmp_pr c = pr) /\
  (forall pr R, R ∈ dict_keys (dict_get_default pr [] g') ↔
     R ∈ dict_keys (dict_get_default pr [] g) \/
     exists c, c ∈ l /\ cmp_pr c = pr /\ future_ubuntu_release vtc c = Ok R).
Proof.
  revert g. induction l as [|x l IH]; intros g Hrun; cbn [foldM] in Hrun.
  - injection Hrun as <-. split; intros; (split; [by left|]); intros [?|[c [Hc _]]]; [done|inversion Hc|done|inversion Hc].
  - destruct (group_one vtc g x) as [g1|e] eqn:Hx; [|discriminate].
    destruct (IH g1 Hrun) as [Hk Hik]. split.
    + intros pr. rewrite Hk, (group_one_keys _ _ _ _ _ Hx).
      setoid_rewrite elem_of_cons. naive_solver.
    + intros pr R. rewrite Hik, (group_one_inner_keys _ _ _ _ _ _ Hx).
      setoid_rewrite elem_of_cons. naive_solver.
Qed.

Lemma elem_of_concat_snd_inv {A B} (L : list (A * list B)) (x : B) :
  x ∈ concat (map snd L) -> exists a s, (a, s) ∈ L /\ x ∈ s.
Proof.
  induction L as [|[a s] L IH]; cbn [map concat snd]; intros Hx; [inversion Hx|].
  apply elem_of_app in Hx as [Hx|Hx].
  - exists a, s. split; [constructor|done].
  - destruct (IH Hx) as [a' [s' [Hin Hx']]]. exists a', s'. split; [by right|done].
Qed.

Lemma default_of_get {K V} `{EqDecision K} (k : K) (d : pydict K (list V)) (v : list V) :
  dict_get k d = Some v -> dict_get_default k [] d = v.
Proof. unfold dict_get_default. by intros ->. Qed.

(** Unfolding a successful [_get_grouped_comparisons]. *)
Lemma get_grouped_inv (vtc : gmap string string) (pbr : pydict UbuntuRelease (list PR))
    (ns : pydict PR (gset string)) (pkgs : pydict UbuntuRelease (gset string)) (g : grouped) :
  get_grouped_comparisons vtc pbr ns pkgs = Ok g ->
  exists cs g1, get_comparisons vtc pbr ns pkgs = Ok cs /\ foldM (group_one vtc) cs [] = Ok g1 /\
    mapR (fill_future vtc pbr) (add_missing_prs pbr g1) = Ok g.
Proof.
  unfold get_grouped_comparisons, mbind at 1, result_bind at 1.
  destruct (get_comparisons vtc pbr ns pkgs) as [cs|] eqn:Hcs; [|discriminate].
  unfold mbind, result_bind. destruct (foldM (group_one vtc) cs []) as [g1|] eqn:H1; [|discriminate].
  intros Hg. by exists cs, g1.
Qed.

Lemma grouped_keys_of (vtc : gmap string string) (pbr : pydict UbuntuRelease (list PR))
    (ns : pydict PR (gset string)) (pkgs : pydict UbuntuRelease (gset string)) (g : grouped) :
  get_grouped_comparisons vtc pbr ns pkgs = Ok g ->
  forall pr, pr ∈ dict_keys g ↔ exists R s, (R, s) ∈ pbr /\ pr ∈ s.
Proof.
  intros Hg pr. destruct (get_grouped_inv _ _ _ _ _ Hg) as [cs [g1 [Hcs [H1 Hmap]]]].
  rewrite (mapR_keys _ _ _ Hmap (fill_future_key vtc pbr)).
  rewrite <- dict_get_Some_keys, add_missing_prs_get.
  destruct (group_loop_keys vtc cs [] g1 H1) as [Hk _].
  split.
  - destruct (decide (pr ∈ concat (map snd pbr))) as [Hin|Hin].
    + intros _. by apply elem_of_concat_snd_inv.
    + intros Hs. apply dict_get_Some_keys, Hk in Hs as [Hs|[c [Hc <-]]]; [inversion Hs|].
      destruct (get_comparisons_sound _ _ _ _ _ Hcs c Hc) as (R & s & _ & _ & Hent & Hpr & _).
      by exists R, s.
  - intros (R & s & Hent & Hpr). rewrite decide_True; [done|]. by apply (elem_of_concat_snd _ R s).
Qed.

Lemma grouped_inner_keys_of (vtc : gmap string string) (pbr : pydict UbuntuRelease (list PR))
    (ns : pydict PR (gset string)) (pkgs : pydict UbuntuRelease (gset string)) (g : grouped) :
  NoDup (dict_keys pbr) ->
  (forall R s pr, dict_get R pbr = Some s -> pr ∈ s -> pr_ubuntu_release vtc pr = Ok R) ->
  get_grouped_comparisons vtc pbr ns pkgs = Ok g ->
  forall pr inner, dict_get pr g = Some inner ->
  exists R, pr_ubuntu_release vtc pr = Ok R /\
    forall R', R' ∈ dict_keys inner ↔ R' ∈ dict_keys pbr /\ release_gt R' R = Ok true.
Proof.
  intros Hnd Hpart Hg pr inner Hget. destruct (get_grouped_inv _ _ _ _ _ Hg) as [cs [g1 [Hcs [H1 Hmap]]]].
  destruct (mapR_get_inv _ _ _ _ _ Hmap (fill_future_key vtc pbr) Hget) as [v [Hv Hfill]].
  assert (Hv' : v = dict_get_default pr [] g1).
  { rewrite add_missing_prs_get in Hv. destruct (decide _); [by injection Hv|symmetry; by apply default_of_get]. }
  subst v. unfold fill_future, mbind, result_bind in Hfill. simpl in Hfill.
  destruct (pr_ubuntu_release vtc pr) as [R|] eqn:HR; [|discriminate].
  destruct (future_releases_of pbr R) as [fut|] eqn:Hfut; cbn in Hfill; [|discriminate].
  injection Hfill as <-. exists R. split; [done|]. intros R'.
  rewrite (setdefault_foldl_keys (V := Comparison)).
  destruct (group_loop_keys vtc cs [] g1 H1) as [_ Hik]. rewrite Hik. split.
  - intros [Hf|[Hn|[c (Hc & <- & Hfr)]]].
    + apply (filterM_Ok_inv _ _ _ _ Hfut Hf).
    + inversion Hn.
    + destruct (get_comparisons_sound _ _ _ _ _ Hcs c Hc) as (R0 & s & R1 & s1 & Hent & Hpr & Hg1 & Hpf & Hgt & _).
      pose proof (Hpart _ _ _ (dict_get_of_In _ _ _ Hnd Hent) Hpr) as HR0. rewrite HR in HR0. injection HR0 as <-.
      pose proof (Hpart _ _ _ Hg1 Hpf) as HR1. unfold future_ubuntu_release in Hfr. rewrite HR1 in Hfr.
      injection Hfr as <-. split; [apply dict_get_Some_keys; by eexists|done].
  - intros [Hk Hgt]. left. by apply (filterM_Ok_elem _ _ _ _ Hfut).
Qed.

Lemma forward_port_verdicts_inv (vtc : gmap string string) (rels : list UbuntuRelease) (prs : list PR)
    (heads bases : pydict PR (gset string)) (pkgs : pydict UbuntuRelease (gset string)) (out : list (Z * bool)) :
  forward_port_verdicts vtc rels prs heads bases pkgs = Ok out ->
  exists pbr ns g, group_prs_by_ubuntu_release vtc prs rels = Ok pbr /\
    group_new_slices_by_pr heads bases = Ok ns /\ get_grouped_comparisons vtc pbr ns pkgs = Ok g /\
    out = map (fun e : PR * pydict UbuntuRelease (list Comparison) =>
             (number e.1, forward_porting_status (dict_get_default e.1 ∅ ns) e.2)) (merge_sort entry_le g).
Proof.
  unfold forward_port_verdicts, mbind, result_bind.
  destruct (group_prs_by_ubuntu_release vtc prs rels) as [pbr|] eqn:H1; [|discriminate].
  destruct (group_new_slices_by_pr heads bases) as [ns|] eqn:H2; [|discriminate].
  destruct (get_grouped_comparisons vtc pbr ns pkgs) as [g|] eqn:H3; [|discriminate].
  intros [= <-]. by exists pbr, ns, g.
Qed.

Lemma partition_hpart (vtc : gmap string string) (prs : list PR) (rels : list UbuntuRelease)
    (pbr : pydict UbuntuRelease (list PR)) :
  is_partition vtc prs rels pbr ->
  forall R s pr, dict_get R pbr = Some s -> pr ∈ s -> pr_ubuntu_release vtc pr = Ok R.
Proof. intros [_ Hmem] R s pr Hs Hpr. by apply (Hmem R s pr Hs) in Hpr as [_ ?]. Qed.

Lemma partition_members (vtc : gmap string string) (prs : list PR) (rels : list UbuntuRelease)
    (pbr : pydict UbuntuRelease (list PR)) (pr : PR) :
  is_partition vtc prs rels pbr -> NoDup (dict_keys pbr) ->
  (exists R s, (R, s) ∈ pbr /\ pr ∈ s) ↔ pr ∈ prs /\ exists R, pr_ubuntu_release vtc pr = Ok R /\ R ∈ rels.
Proof.
  intros [Hkeys Hmem] Hnd. split.
  - intros (R & s & Hent & Hpr).
    apply (Hmem R s pr (dict_get_of_In _ _ _ Hnd Hent)) in Hpr as [Hpr HR].
    split; [done|]. exists R. split; [done|]. apply Hkeys. by eapply dict_In_keys.
  - intros [Hpr [R [HR Hin]]]. apply Hkeys, dict_get_Some_keys in Hin as [s Hs].
    exists R, s. split; [by apply dict_get_In|]. by apply (Hmem R s pr Hs).
Qed.

(** X7: The keys of [_get_grouped_comparisons]'s mapping are exactly the PRs of
    the partition it is given. *)
Theorem grouped_comparisons_keys (vtc : gmap string string) (pbr : pydict UbuntuRelease (list PR))
    (ns : pydict PR (gset string)) (pkgs : pydict UbuntuRelease (gset string)) (g : grouped) :
  get_grouped_comparisons vtc pbr ns pkgs = Ok g ->
  forall pr, pr ∈ dict_keys g ↔ exists R s, (R, s) ∈ pbr /\ pr ∈ s.
Proof. apply grouped_keys_of. Qed.

(** X8: Under each PR, the mapping of [_get_grouped_comparisons] has a key for
    exactly the known releases later (by [>]) than the PR's own release. *)
Theorem grouped_comparisons_inner_keys (vtc : gmap string string) (pbr : pydict UbuntuRelease (list PR))
    (ns : pydict PR (gset string)) (pkgs : pydict UbuntuRelease (gset string)) (g : grouped) :
  NoDup (dict_keys pbr) ->
  (forall R s pr, dict_get R pbr = Some s -> pr ∈ s -> pr_ubuntu_release vtc pr = Ok R) ->
  get_grouped_comparisons vtc pbr ns pkgs = Ok g ->
  forall pr inner, dict_get pr g = Some inner ->
  exists R, pr_ubuntu_release vtc pr = Ok R /\
    forall R', R' ∈ dict_keys inner ↔ R' ∈ dict_keys pbr /\ release_gt R' R = Ok true.
Proof. apply grouped_inner_keys_of. Qed.

Lemma dict_keys_nil {K V} (d : pydict K V) : (forall k, k ∉ dict_keys d) -> d = [].
Proof. destruct d as [|[k v] d]; [done|]. intros H. destruct (H k). constructor. Qed.

(** X9: In [main]'s report, a PR into a known release with no later known release
    is always listed as forward-ported. *)
Theorem newest_release_forward_ported (vtc : gmap string string) (rels : list UbuntuRelease) (prs : list PR)
    (heads bases : pydict PR (gset string)) (pkgs : pydict UbuntuRelease (gset string))
    (out : list (Z * bool)) (pr : PR) (R : UbuntuRelease) :
  forward_port_verdicts vtc rels prs heads bases pkgs = Ok out ->
  pr ∈ prs -> pr_ubuntu_release vtc pr = Ok R -> R ∈ rels ->
  (forall R', R' ∈ rels -> release_gt R' R ≠ Ok true) ->
  (number pr, true) ∈ out.
Proof.
  intros Hrun Hpr HR Hin Hnewest.
  destruct (forward_port_verdicts_inv _ _ _ _ _ _ _ Hrun) as (pbr & ns & g & Hp & Hns & Hg & ->).
  destruct (group_prs_ok_partition _ _ _ _ Hp) as [Hpart Hnd].
  assert (Hkey : pr ∈ dict_keys g).
  { apply (grouped_keys_of _ _ _ _ _ Hg). apply (partition_members vtc prs rels); [done|done|].
    split; [done|]. by exists R. }
  apply dict_get_Some_keys in Hkey as [inner Hinner].
  destruct (grouped_inner_keys_of _ _ _ _ _ Hnd (partition_hpart _ _ _ _ Hpart) Hg pr inner Hinner)
    as [R0 [HR0 Hik]].
  rewrite HR in HR0. injection HR0 as <-.
  assert (Hnil : inner = []).
  { apply dict_keys_nil. intros R' HR'. apply Hik in HR' as [HR' Hgt].
    apply (Hnewest R'); [|done]. by apply (proj1 Hpart). }
  subst inner. apply list_elem_of_In, in_map_iff. exists (pr, []). split.
  - simpl. unfold forward_porting_status. by destruct (decide _).
  - apply list_elem_of_In.
    rewrite (merge_sort_Permutation entry_le g). by apply dict_get_In.
Qed.


Lemma sorted_entry_numbers (l : list (PR * pydict UbuntuRelease (list Comparison))) :
  Sorted entry_le l -> Sorted Z.le (map (fun e => number e.1) l).
Proof.
  induction 1 as [|e l Hs IH Hhd]; simpl; constructor; [done|].
  destruct Hhd as [|e' l' Hle]; simpl; constructor. exact Hle.
Qed.

(** X10: [main]'s report lists PR numbers in increasing order, and a number occurs
    exactly when some PR of the input has it and resolves into a known release. *)
Theorem forward_port_verdicts_listing (vtc : gmap string string) (rels : list UbuntuRelease) (prs : list PR)
    (heads bases : pydict PR (gset string)) (pkgs : pydict UbuntuRelease (gset string))
    (out : list (Z * bool)) :
  forward_port_verdicts vtc rels prs heads bases pkgs = Ok out ->
  Sorted Z.le (map fst out) /\
  forall n, n ∈ map fst out ↔ exists pr, pr ∈ prs /\ number pr = n /\
                                exists R, pr_ubuntu_release vtc pr = Ok R /\ R ∈ rels.
Proof.
  intros Hrun.
  destruct (forward_port_verdicts_inv _ _ _ _ _ _ _ Hrun) as (pbr & ns & g & Hp & Hns & Hg & ->).
  destruct (group_prs_ok_partition _ _ _ _ Hp) as [Hpart Hnd].
  rewrite map_map. split.
  - apply sorted_entry_numbers, Sorted_merge_sort. apply _.
  - intros n. rewrite list_elem_of_In, in_map_iff. split.
    + intros [[pr inner] [<- Hin]]. simpl. apply list_elem_of_In in Hin.
      rewrite (merge_sort_Permutation entry_le g) in Hin.
      assert (Hk : pr ∈ dict_keys g) by (by apply (dict_In_keys _ _ inner)).
      apply (grouped_keys_of _ _ _ _ _ Hg), (partition_members vtc prs rels) in Hk; [|done|done].
      exists pr. naive_solver.
    + intros (pr & Hpr & <- & HR).
      assert (Hk : pr ∈ dict_keys g).
      { apply (grouped_keys_of _ _ _ _ _ Hg). by apply (partition_members vtc prs rels). }
      apply dict_get_Some_keys in Hk as [inner Hinner].
      exists (pr, inner). split; [done|]. apply list_elem_of_In.
      rewrite (merge_sort_Permutation entry_le g). by apply dict_get_In.
Qed.

Lemma try_down_inv {X} (n lo : nat) (s : list ascii) (caps : captures) (k : list ascii -> captures -> option X) x :
  try_down n lo s caps k = Some x -> exists m, lo <= m <= n /\ k (drop m s) caps = Some x.
Proof.
  induction n as [|n IH]; simpl; case_bool_decide; try discriminate.
  - destruct (k (drop 0 s) caps) eqn:Hk; [|discriminate]. intros [= <-]. exists 0. split; [lia|done].
  - destruct (k (drop (S n) s) caps) eqn:Hk.
    + intros [= <-]. exists (S n). split; [lia|done].
    + intros Ht. destruct (IH Ht) as [m [Hm Hm']]. exists m. split; [lia|done].
Qed.

Lemma try_down_first {X} (n lo : nat) (s : list ascii) (caps : captures) (k : list ascii -> captures -> option X) x :
  lo <= n -> k (drop n s) caps = Some x -> try_down n lo s caps k = Some x.
Proof. intros Hn Hk. destruct n; simpl; (rewrite bool_decide_false; [|lia]); by rewrite Hk. Qed.


Lemma class_run_spec (p : ascii -> bool) (hi : option nat) (s : list ascii) (m : nat) :
  m <= class_run p hi s -> Forall (fun c => p c = true) (take m s) /\ m <= length s /\ within hi m.
Proof.
  revert hi m. induction s as [|c s IH]; intros hi m Hm; simpl in Hm.
  - assert (m = 0) as -> by lia. split; [simpl; constructor|]. split; [simpl; lia|]. destruct hi; simpl; lia.
  - destruct (p c) eqn:Hp; [|assert (m = 0) as -> by lia; split; [constructor|]; split; [simpl; lia|]; destruct hi; simpl; lia].
    destruct m as [|m]; [split; [constructor|]; split; [simpl; lia|]; destruct hi; simpl; lia|].
    destruct hi as [[|h]|].
    + lia.
    + destruct (IH (Some h) m) as [H1 [H2 H3]]; [lia|]. simpl. split; [by constructor|]. simpl in *. split; lia.
    + destruct (IH None m) as [H1 [H2 H3]]; [lia|]. simpl. split; [by constructor|]. split; [lia|done].
Qed.

Lemma class_run_app (p : ascii -> bool) (hi : option nat) (w s : list ascii) :
  Forall (fun c => p c = true) w -> within hi (length w) ->
  (hi = Some (length w) \/ match s with c :: _ => p c = false | [] => True end) ->
  class_run p hi (w ++ s) = length w.
Proof.
  revert hi. induction w as [|a w IH]; intros hi Hw Hhi Hstop; simpl.
  - destruct s as [|c s]; [done|]. simpl. destruct Hstop as [-> | Hc]; [by destruct (p c)|]. by rewrite Hc.
  - inversion Hw as [|? ? Ha Hw']; subst. rewrite Ha. destruct hi as [[|h]|]; simpl in Hhi.
    + lia.
    + f_equal. apply IH; [done|simpl; lia|]. destruct Hstop as [[= ->]|]; [by left|by right].
    + f_equal. apply IH; [done|done|]. destruct Hstop as [?|]; [discriminate|by right].
Qed.

Lemma take_app_len (w s : list ascii) : take (length (w ++ s) - length s) (w ++ s) = w.
Proof. rewrite length_app, Nat.add_sub. apply take_app_length. Qed.


Lemma rmatch_sound {X} (r : regex) : forall (s : list ascii) (caps : captures) (k : list ascii -> captures -> option X) x,
  rmatch r s caps k = Some x ->
  exists (w s' : list ascii) (caps' : captures), s = (w ++ s')%list /\ in_lang r w /\ k s' caps' = Some x /\ caps_inv r caps caps'.
Proof.
  induction r as [c|p lo hi|r1 IH1 r2 IH2|r IH|n r IH]; intros s caps k x; simpl.
  - destruct s as [|c' s]; [discriminate|]. destruct (Ascii.eqb c c') eqn:Hc; [|discriminate].
    apply Ascii.eqb_eq in Hc as <-. intros Hk. exists [c], s, caps.
    split; [done|]. split; [constructor|]. split; [done|]. split; [|split]; [by left|simpl; set_solver|done].
  - intros Ht. destruct (try_down_inv _ _ _ _ _ _ Ht) as [m [Hm Hk]].
    destruct (class_run_spec p hi s m) as [H1 [H2 H3]]; [lia|].
    exists (take m s), (drop m s), caps. split; [by rewrite take_drop|]. split.
    + constructor; [done| rewrite length_take; lia | destruct hi; simpl in *; [rewrite length_take|]; [lia|done]].
    + split; [done|]. split; [|split]; [by left|simpl; set_solver|done].
  - intros H. destruct (IH1 _ _ _ _ H) as [w1 [s1 [c1 [-> [Hw1 [Hk1 [A1 [B1 C1]]]]]]]].
    destruct (IH2 _ _ _ _ Hk1) as [w2 [s2 [c2 [-> [Hw2 [Hk2 [A2 [B2 C2]]]]]]]].
    exists (w1 ++ w2)%list, s2, c2. split; [by rewrite app_assoc|]. split; [by constructor|]. split; [done|].
    split; [|split].
    + intros n v Hv. destruct (A2 n v Hv) as [Hv1|[r' [Hr' Hl]]].
      * destruct (A1 n v Hv1) as [Hv0|[r' [Hr' Hl]]]; [by left|]. right. exists r'. split; [|done]. set_solver.
      * right. exists r'. split; [|done]. set_solver.
    + intros n Hn. apply elem_of_app in Hn as [Hn|Hn]; [apply C2; by apply B1|by apply B2].
    + intros n Hn. by apply C2, C1.
  - destruct (rmatch r s caps k) eqn:Hr.
    + intros [= <-]. destruct (IH _ _ _ _ Hr) as [w [s' [c' [-> [Hw [Hk [A [B C]]]]]]]].
      exists w, s', c'. split; [done|]. split; [by constructor|]. split; [done|].
      split; [|split]; [done|simpl; set_solver|done].
    + intros Hk. exists [], s, caps. split; [done|]. split; [constructor|]. split; [done|].
      split; [|split]; [by left|simpl; set_solver|done].
  - intros H. destruct (IH _ _ _ _ H) as [w [s' [c' [-> [Hw [Hk [A [B C]]]]]]]].
    rewrite take_app_len in Hk. exists w, s', ((n, w) :: c'). split; [done|]. split; [by constructor|].
    split; [done|]. split; [|split].
    + intros m v. simpl. destruct (decide (m = n)) as [->|Hmn].
      * intros [= <-]. right. exists r. split; [by left|done].
      * intros Hv. destruct (A m v Hv) as [Hv0|[r' [Hr' Hl]]]; [by left|]. right. exists r'. split; [by right|done].
    + intros m Hm. simpl. destruct (decide (m = n)); [done|]. apply B. set_solver.
    + intros m Hm. simpl. destruct (decide (m = n)); [done|]. by apply C.
Qed.

Lemma rmatch_char {X} (c : ascii) (s : list ascii) (caps : captures) (k : list ascii -> captures -> option X) :
  rmatch (RChar c) (c :: s) caps k = k s caps.
Proof. simpl. by rewrite Ascii.eqb_refl. Qed.

Lemma rmatch_rlit {X} (p : string) (r : regex) (s : list ascii) (caps : captures) (k : list ascii -> captures -> option X) :
  rmatch (rlit p r) (list_ascii_of_string p ++ s) caps k = rmatch r s caps k.
Proof. induction p as [|c p IH]; [done|]. simpl. by rewrite Ascii.eqb_refl. Qed.

Lemma rmatch_class_first {X} (p : ascii -> bool) (lo : nat) (hi : option nat) (w s : list ascii) (caps : captures)
    (k : list ascii -> captures -> option X) x :
  Forall (fun c => p c = true) w -> lo <= length w -> within hi (length w) ->
  (hi = Some (length w) \/ match s with c :: _ => p c = false | [] => True end) ->
  k s caps = Some x -> rmatch (RClass p lo hi) (w ++ s) caps k = Some x.
Proof.
  intros Hw Hlo Hhi Hstop Hk. simpl. rewrite (class_run_app p hi w s Hw Hhi Hstop).
  apply try_down_first; [done|]. by rewrite drop_app_length.
Qed.


Lemma is_digit_val (c : ascii) : is_digit c = true -> exists d, digit_val c = Some d /\ (0 <= d <= 9)%Z.
Proof.
  unfold is_digit, digit_val. destruct ((48 <=? nat_of_ascii c)%nat && (nat_of_ascii c <=? 57)%nat) eqn:H; [|discriminate].
  intros _. apply andb_prop in H as [H1 H2]. apply Nat.leb_le in H1, H2. eexists. split; [done|lia].
Qed.

Lemma digit_not_special (c : ascii) (d : Z) :
  digit_val c = Some d -> int_space c = false /\ Ascii.eqb c "+" = false /\ Ascii.eqb c "-" = false /\ Ascii.eqb c "_" = false.
Proof.
  intros H. destruct c as [[] [] [] [] [] [] [] []]; vm_compute in H; try discriminate H; vm_compute; auto.
Qed.

Lemma int_scan_all (w : list ascii) (b : bool) (acc : Z) (nd : nat) :
  Forall (fun c => is_digit c = true) w -> w ≠ [] ->
  exists v x n, int_scan (string_of_list_ascii w) b acc nd = Some (x, n, false, EmptyString) /\
    x = (acc * 10 ^ Z.of_nat (length w) + v)%Z /\ n = (nd + length w)%nat /\ (0 <= v < 10 ^ Z.of_nat (length w))%Z.
Proof.
  revert b acc nd. induction w as [|c w IH]; intros b acc nd Hw Hne; [done|].
  inversion Hw as [|? ? Hc Hw']; subst. destruct (is_digit_val c Hc) as [d [Hd Hd9]].
  simpl. rewrite Hd. destruct w as [|c' w'].
  - exists d. do 2 eexists. split; [reflexivity|]. simpl. lia.
  - destruct (IH false (acc * 10 + d)%Z (S nd) Hw') as [v [x [n [Hv [-> [-> Hv']]]]]]; [done|]. rewrite Hv.
    exists (d * 10 ^ Z.of_nat (length (c' :: w')) + v)%Z. do 2 eexists. split; [reflexivity|].
    cbn [length] in *. set (L := S (length w')) in *.
    rewrite (Nat2Z.inj_succ L), Z.pow_succ_r by lia. split; [ring|]. split; [lia|nia].
Qed.

Lemma py_int_digits (w : list ascii) :
  Forall (fun c => is_digit c = true) w -> 1 <= length w <= 2 ->
  exists y, py_int (string_of_list_ascii w) = Ok y /\ (0 <= y < 100)%Z.
Proof.
  intros Hw Hl. destruct w as [|c w']; [simpl in Hl; lia|].
  destruct (int_scan_all (c :: w') false 0 0 Hw) as [v [x [n [Hv [-> [-> Hv']]]]]]; [done|].
  inversion Hw as [|? ? Hc _]; subst. destruct (is_digit_val c Hc) as [d [Hd _]].
  destruct (digit_not_special c d Hd) as [Hs [Hp [Hm Hu]]].
  unfold py_int. cbn [string_of_list_ascii skip_int_space] in *. rewrite Hs, Hp, Hm, Hu, Hv.
  simpl (false || _). replace (0 + length (c :: w'))%nat with (length (c :: w')) by lia.
  destruct (length (c :: w')) as [|[|[|k]]] eqn:Hlen; try lia; simpl; eexists; (split; [reflexivity|]);
    simpl in Hv'; lia.
Qed.

Lemma string_of_list_ascii_app (a b : list ascii) :
  string_of_list_ascii (a ++ b) = string_of_list_ascii a ++ string_of_list_ascii b.
Proof. induction a as [|c a IH]; simpl; [done|]. by rewrite IH. Qed.

Lemma list_ascii_of_string_app (a b : string) :
  list_ascii_of_string (a ++ b) = (list_ascii_of_string a ++ list_ascii_of_string b)%list.
Proof. induction a as [|c a IH]; simpl; [done|]. by rewrite IH. Qed.

Lemma version_tuple_parts (ys ms cn : string) (y m : Z) :
  py_int ys = Ok y -> py_int ms = Ok m -> version_tuple (mkRelease (ys ++ String "." ms) cn) = Ok (y, m).
Proof.
  intros Hy Hm. unfold version_tuple. simpl.
  rewrite (split_on_app _ _ _ (py_int_no_dot _ _ Hy)), (py_int_no_dot _ _ Hm). simpl. by rewrite Hy, Hm.
Qed.

Lemma distro_version_lang (v : list ascii) (cn : string) :
  in_lang distro_version_re v ->
  exists y m, version_tuple (mkRelease (string_of_list_ascii v) cn) = Ok (y, m) /\
              (0 <= y < 100)%Z /\ (0 <= m < 100)%Z.
Proof.
  intros H. inversion H as [| |? ? w1 w23 H1 H23| | |]; subst.
  inversion H23 as [| |? ? wd w2 Hd H2| | |]; subst.
  inversion H1 as [|p1 lo1 hi1 ? F1 L1 U1| | | |]; subst.
  inversion H2 as [|p2 lo2 hi2 ? F2 L2 U2| | | |]; subst.
  inversion Hd; subst.
  destruct (py_int_digits w1 F1) as [y [Hy Hy']]; [simpl in U1; lia|].
  destruct (py_int_digits w2 F2) as [m [Hm Hm']]; [simpl in U2; lia|].
  exists y, m. split; [|done].
  rewrite string_of_list_ascii_app. simpl. by apply version_tuple_parts.
Qed.

Lemma distro_codename_lang (v : list ascii) :
  in_lang distro_codename_re v ->
  string_of_list_ascii v ≠ "" /\ str_forall is_letter_or_space (string_of_list_ascii v) = true.
Proof.
  intros H. inversion H as [|p lo hi ? F L U| | | |]; subst.
  destruct v as [|c v]; [simpl in L; lia|]. split; [done|].
  clear -F. induction F as [|c0 v0 Hc _ IH]; simpl; [done|]. by rewrite Hc, IH.
Qed.

Lemma groups_distro :
  groups_of distro_info_re = [(1, distro_version_re); (2, distro_lts_re); (3, distro_codename_re)].
Proof. reflexivity. Qed.

Lemma mandatory_distro : mandatory_groups distro_info_re = [1; 3].
Proof. reflexivity. Qed.

Lemma distro_group_lang (caps : captures) (n : nat) (r : regex) (line : string) :
  re_match distro_info_re line = Some caps -> (n, r) ∈ groups_of distro_info_re -> n ∈ mandatory_groups distro_info_re ->
  exists v, dict_get n caps = Some v /\ group caps n = string_of_list_ascii v /\ in_lang r v.
Proof.
  unfold re_match. intros Hm Hn Hmand.
  destruct (rmatch_sound _ _ _ _ _ Hm) as [w [s' [c' [_ [_ [[= <-] [A [B _]]]]]]]].
  destruct (B n Hmand) as [v Hv]. exists v. split; [done|]. unfold group. rewrite Hv. split; [done|].
  destruct (A n v Hv) as [Hnil|[r' [Hr' Hl]]]; [discriminate|].
  rewrite groups_distro, !elem_of_cons, elem_of_nil in Hn, Hr'.
  destruct Hn as [Hn|[Hn|[Hn|[]]]]; destruct Hr' as [Hr'|[Hr'|[Hr'|[]]]]; congruence.
Qed.

Lemma str_forall_Forall (p : ascii -> bool) (s : string) :
  str_forall p s = true ↔ Forall (fun c => p c = true) (list_ascii_of_string s).
Proof.
  induction s as [|c s IH]; simpl; [split; [constructor|done]|].
  rewrite andb_true_iff, IH, Forall_cons. done.
Qed.

Lemma length_list_ascii_of_string (s : string) : length (list_ascii_of_string s) = String.length s.
Proof. induction s; simpl; auto. Qed.

Lemma rmatch_opt_some {X} (r : regex) (s : list ascii) (caps : captures) (k : list ascii -> captures -> option X) x :
  rmatch r s caps k = Some x -> rmatch (ROpt r) s caps k = Some x.
Proof. simpl. by intros ->. Qed.

Lemma rmatch_opt_none {X} (r : regex) (s : list ascii) (caps : captures) (k : list ascii -> captures -> option X) x :
  rmatch r s caps k = None -> k s caps = Some x -> rmatch (ROpt r) s caps k = Some x.
Proof. simpl. by intros ->. Qed.

Lemma take_app_split3 (a : list ascii) (c : ascii) (b t : list ascii) :
  take (length (a ++ c :: b ++ t) - length t) (a ++ c :: b ++ t) = (a ++ c :: b)%list.
Proof.
  replace (a ++ c :: b ++ t)%list with ((a ++ c :: b) ++ t)%list by (by rewrite <- app_assoc).
  apply take_app_len.
Qed.

Lemma distro_line_match (y m cn rest : string) (lts : bool) :
  1 <= String.length y <= 2 -> String.length m = 2 -> str_forall is_digit y = true -> str_forall is_digit m = true ->
  cn ≠ "" -> str_forall is_letter_or_space cn = true ->
  re_match distro_info_re ("Ubuntu " ++ y ++ "." ++ m ++ (if lts then " LTS" else "") ++
                           String " " (String dquote (cn ++ String dquote rest))) =
  Some ((3, list_ascii_of_string cn) ::
        (if lts then [(2, list_ascii_of_string " LTS")] else []) ++
        [(1, list_ascii_of_string (y ++ "." ++ m))]).
Proof.
  intros Hy Hm Dy Dm Hcn Lcn. apply str_forall_Forall in Dy, Dm, Lcn.
  rewrite <- !length_list_ascii_of_string in Hy, Hm.
  unfold re_match, distro_info_re. rewrite !list_ascii_of_string_app, rmatch_rlit.
  set (Ly := list_ascii_of_string y) in *. set (Lm := list_ascii_of_string m) in *.
  set (Lc := list_ascii_of_string cn) in *.
  cbn [rmatch]. unfold distro_version_re. cbn [rmatch list_ascii_of_string app].
  rewrite (class_run_app _ _ Ly); [|done|simpl; lia|right; reflexivity].
  apply try_down_first; [lia|]. rewrite drop_app_length. cbn [rmatch].
  rewrite Ascii.eqb_refl.
  rewrite (class_run_app _ _ Lm); [|done|simpl; lia|left; by rewrite Hm].
  apply try_down_first; [lia|]. rewrite drop_app_length.
  rewrite list_ascii_of_string_app. fold Lc. set (Lr := list_ascii_of_string (String dquote rest)).
  rewrite (take_app_split3 Ly "."%char Lm).
  assert (Hc : 1 <= length Lc) by (destruct cn; [done|simpl; lia]).
  destruct lts; cbn.
  - match goal with |- context [S (S (S (S ?n))) - ?n] => replace (S (S (S (S n))) - n) with 4 by lia end.
    cbn [take]. rewrite (class_run_app _ _ Lc); [|done|done|right; reflexivity].
    erewrite try_down_first; [reflexivity|done|]. rewrite drop_app_length. cbn.
    rewrite take_app_len. reflexivity.
  - rewrite (class_run_app _ _ Lc); [|done|done|right; reflexivity].
    apply try_down_first; [done|]. rewrite drop_app_length. cbn.
    rewrite take_app_len. reflexivity.
Qed.

Lemma distro_line_sound (line : string) (r : UbuntuRelease) :
  from_distro_info_line line = Ok r ->
  (exists y m, version_tuple r = Ok (y, m) /\ (0 <= y < 100)%Z /\ (0 <= m < 100)%Z) /\
  codename r ≠ "" /\ str_forall is_letter_or_space (codename r) = true.
Proof.
  unfold from_distro_info_line. destruct (re_match distro_info_re line) as [caps|] eqn:Hm; [|discriminate].
  intros [= <-]. simpl.
  destruct (distro_group_lang caps 1 distro_version_re line Hm) as [v1 [_ [-> H1]]];
    [rewrite groups_distro; set_solver|rewrite mandatory_distro; set_solver|].
  destruct (distro_group_lang caps 3 distro_codename_re line Hm) as [v3 [_ [-> H3]]];
    [rewrite groups_distro; set_solver|rewrite mandatory_distro; set_solver|].
  split; [by apply distro_version_lang|by apply distro_codename_lang].
Qed.

(** X11: A release parsed by [UbuntuRelease.from_distro_info_line] has a version
    whose tuple parses into two integers below 100, and a nonempty codename of
    letters and spaces. *)
Theorem from_distro_info_line_sound (line : string) (r : UbuntuRelease) :
  from_distro_info_line line = Ok r ->
  (exists y m, version_tuple r = Ok (y, m) /\ (0 <= y < 100)%Z /\ (0 <= m < 100)%Z) /\
  codename r ≠ "" /\ str_forall is_letter_or_space (codename r) = true.
Proof. apply distro_line_sound. Qed.

(** X12: [UbuntuRelease.from_distro_info_line] parses a [distro-info --fullname]
    line [Ubuntu y.m [LTS] Qcodename...] (Q a double quote) back into
    version [y.m] and the codename. *)
Theorem from_distro_info_line_roundtrip (y m cn rest : string) (lts : bool) :
  1 <= String.length y <= 2 -> String.length m = 2 -> str_forall is_digit y = true -> str_forall is_digit m = true ->
  cn ≠ "" -> str_forall is_letter_or_space cn = true ->
  from_distro_info_line ("Ubuntu " ++ y ++ "." ++ m ++ (if lts then " LTS" else "") ++
                         String " " (String dquote (cn ++ String dquote rest))) =
  Ok (mkRelease (y ++ "." ++ m) cn).
Proof.
  intros Hy Hm Dy Dm Hcn Lcn. unfold from_distro_info_line.
  rewrite (distro_line_match y m cn rest lts Hy Hm Dy Dm Hcn Lcn).
  unfold group. destruct lts; simpl; by rewrite !string_of_list_ascii_of_string.
Qed.

Lemma mapR_Ok_elem {A B} (f : A -> result B) (xs : list A) (ys : list B) :
  mapR f xs = Ok ys -> forall y, y ∈ ys ↔ exists x, x ∈ xs /\ f x = Ok y.
Proof.
  revert ys. induction xs as [|x xs IH]; intros ys; simpl.
  - intros [= <-] y. split; [intros Hy; by apply not_elem_of_nil in Hy|]. intros [x [Hx _]]. by apply not_elem_of_nil in Hx.
  - destruct (f x) as [y0|] eqn:Hf; [|discriminate]. destruct (mapR f xs) as [ys'|]; [|discriminate].
    intros [= <-] y. rewrite elem_of_cons, (IH ys' eq_refl). split.
    + intros [->|[x' [Hx' Hf']]]; [exists x; split; [left|]; done|]. exists x'. split; [by right|done].
    + intros [x' [Hx' Hf']]. apply elem_of_cons in Hx' as [->|Hx']; [left; congruence|]. right. by exists x'.
Qed.

Lemma py_set_elem_acc {A} `{EqDecision A} (xs acc : list A) (x : A) :
  x ∈ foldl (fun s y => set_add y s) acc xs ↔ x ∈ acc \/ x ∈ xs.
Proof.
  revert acc. induction xs as [|y xs IH]; intros acc; simpl.
  - split; [by left|]. intros [?|Hx]; [done|by apply not_elem_of_nil in Hx].
  - rewrite IH, set_add_elem, elem_of_cons. naive_solver.
Qed.

Lemma py_set_elem {A} `{EqDecision A} (xs : list A) (x : A) : x ∈ py_set xs ↔ x ∈ xs.
Proof. unfold py_set. rewrite py_set_elem_acc. split; [intros [Hx|Hx]; [by apply not_elem_of_nil in Hx|done]|by right]. Qed.

Lemma table_foldl_lookup (l : list UbuntuRelease) (m : gmap string string) (v cn : string) :
  foldl (fun m (r : UbuntuRelease) => <[version r := codename r]> m) m l !! v = Some cn ->
  mkRelease v cn ∈ l \/ m !! v = Some cn.
Proof.
  revert m. induction l as [|r l IH]; intros m; simpl; [by right|].
  intros H. destruct (IH _ H) as [Hl|Hm]; [left; apply elem_of_cons; by right|].
  destruct (decide (version r = v)) as [<-|Hne].
  - rewrite lookup_insert in Hm. destruct (decide _); [|done]. injection Hm as <-. left. apply elem_of_cons. left. by destruct r.
  - rewrite lookup_insert_ne in Hm by done. by right.
Qed.

Lemma table_foldl_some (l : list UbuntuRelease) (m : gmap string string) (v : string) :
  is_Some (m !! v) \/ (exists r, r ∈ l /\ version r = v) ->
  is_Some (foldl (fun m (r : UbuntuRelease) => <[version r := codename r]> m) m l !! v).
Proof.
  revert m. induction l as [|r l IH]; intros m H; simpl.
  - destruct H as [H|[r [Hr _]]]; [done|by apply not_elem_of_nil in Hr].
  - apply IH. destruct H as [H|[r' [Hr' Hv]]].
    + left. destruct (decide (version r = v)) as [<-|Hne]; [rewrite lookup_insert; destruct (decide _); [|done]; by eexists|].
      by rewrite lookup_insert_ne.
    + apply elem_of_cons in Hr' as [->|Hr'].
      * left. subst v. rewrite lookup_insert. destruct (decide _); [by eexists|done].
      * right. by exists r'.
Qed.

Lemma version_table_spec (set_order : list UbuntuRelease -> list UbuntuRelease)
    (Hperm : forall l, set_order l ≡ₚ l) (all : list UbuntuRelease) :
  (forall v cn, version_table set_order all !! v = Some cn -> mkRelease v cn ∈ all) /\
  (forall r, r ∈ all -> is_Some (version_table set_order all !! version r)).
Proof.
  unfold version_table. split.
  - intros v cn H. destruct (table_foldl_lookup _ _ _ _ H) as [Hl|Hm]; [by rewrite (Hperm all) in Hl|].
    by rewrite lookup_empty in Hm.
  - intros r Hr. apply table_foldl_some. right. exists r. split; [by rewrite (Hperm all)|done].
Qed.

(** A successful run of [init_distro_info], step by step. *)
Lemma init_ok_inv (set_order : list UbuntuRelease -> list UbuntuRelease) (a s d : string) (st st' : DistroState) :
  init_distro_info set_order a s d st = (st', Ok tt) ->
  exists all sup,
    mapR from_distro_info_line (splitlines (py_strip a)) = Ok all /\
    mapR from_distro_info_line (splitlines (py_strip s)) = Ok sup /\
    all_releases st' = py_set all /\
    version_to_codename st' = version_table set_order (py_set all) /\
    supported_releases st' = py_set sup /\
    (forall r, r ∈ py_set sup -> r ∈ py_set all) /\
    match devel_release st' with
    | None => py_strip d = ""
    | Some dv => py_strip d ≠ "" /\ from_distro_info_line (py_strip d) = Ok dv /\ dv ∈ py_set all
    end.
Proof.
  unfold init_distro_info. cbv zeta.
  destruct (mapR from_distro_info_line (splitlines (py_strip a))) as [all|] eqn:Ha; [|by intros [=]].
  destruct (mapR from_distro_info_line (splitlines (py_strip s))) as [sup|] eqn:Hs; [|by intros [=]].
  destruct (forallb (fun r => bool_decide (r ∈ py_set all)) (py_set sup)) eqn:Hsub; simpl; [|by intros [=]].
  assert (Hsub' : forall r, r ∈ py_set sup -> r ∈ py_set all).
  { intros r Hr. rewrite forallb_forall in Hsub. apply list_elem_of_In in Hr. specialize (Hsub r Hr).
    by apply bool_decide_eq_true in Hsub. }
  case_bool_decide as Hd.
  - intros [= <-]. exists all, sup. simpl. repeat split; done.
  - unfold mbind, result_bind. destruct (from_distro_info_line (py_strip d)) as [dv|] eqn:Hdv; [|by intros [=]].
    case_bool_decide as Hin; [|by intros [=]].
    intros [= <-]. exists all, sup. simpl. repeat split; done.
Qed.


Lemma from_branch_name_Ok_inv (vtc : gmap string string) (b : string) (r : UbuntuRelease) :
  from_branch_name vtc b = Ok r -> vtc !! version r = Some (codename r).
Proof.
  intros H. destruct (String.prefix ubuntu_prefix b) eqn:Hp; [|unfold from_branch_name in H; by rewrite Hp in H].
  destruct (prefix_inv _ _ Hp) as [v ->]. rewrite from_branch_name_prefixed in H.
  destruct (vtc !! v) as [cn|] eqn:Hv; [|discriminate]. by injection H as <-.
Qed.

(** X15: After [init_distro_info], a release returned by
    [UbuntuRelease.from_branch_name] is a known release with a well-formed
    version of two integers below 100. *)
Theorem branch_release_known (set_order : list UbuntuRelease -> list UbuntuRelease)
    (Hperm : forall l, set_order l ≡ₚ l) (a s d : string) (st st' : DistroState) (branch : string) (r : UbuntuRelease) :
  init_distro_info set_order a s d st = (st', Ok tt) ->
  from_branch_name (version_to_codename st') branch = Ok r ->
  r ∈ all_releases st' /\ (exists y m : Z, version_tuple r = Ok (y, m) /\ 0 <= y < 100 /\ 0 <= m < 100)%Z.
Proof.
  intros Hrun Hb. destruct (init_ok_inv _ _ _ _ _ _ Hrun) as [all [sup [Ha [_ [Hall [Hv _]]]]]].
  destruct (version_table_spec set_order Hperm (py_set all)) as [H1 _].
  pose proof (from_branch_name_Ok_inv _ _ _ Hb) as Hl. rewrite Hv in Hl.
  apply H1 in Hl. destruct r as [v cn]. simpl in Hl. rewrite Hall. split; [done|].
  rewrite py_set_elem in Hl. destruct (mapR_Ok_elem _ _ _ Ha (mkRelease v cn)) as [Hline _].
  destruct (Hline Hl) as [line [_ Hparse]]. by apply (distro_line_sound line).
Qed.

(** X16: After [init_distro_info], when the known releases have distinct versions,
    [from_branch_name] maps [ubuntu-] followed by a known release's version
    back to that release. *)
Theorem branch_name_roundtrip (set_order : list UbuntuRelease -> list UbuntuRelease)
    (Hperm : forall l, set_order l ≡ₚ l) (a s d : string) (st st' : DistroState) (r : UbuntuRelease) :
  init_distro_info set_order a s d st = (st', Ok tt) ->
  NoDup (map version (all_releases st')) -> r ∈ all_releases st' ->
  from_branch_name (version_to_codename st') (ubuntu_prefix ++ version r) = Ok r.
Proof.
  intros Hrun Hnd Hr. destruct (init_ok_inv _ _ _ _ _ _ Hrun) as [all [sup [_ [_ [Hall [Hv _]]]]]].
  destruct (version_table_spec set_order Hperm (py_set all)) as [H1 H2].
  rewrite from_branch_name_prefixed. rewrite Hall in Hr, Hnd. rewrite Hv.
  destruct (H2 r Hr) as [cn Hcn]. rewrite Hcn. apply H1 in Hcn.
  assert (mkRelease (version r) cn = r) as ->; [|done].
  apply list_elem_of_In in Hcn, Hr.
  destruct (In_nth _ _ (mkRelease "" "") Hcn) as [i [Hi Hni]].
  destruct (In_nth _ _ (mkRelease "" "") Hr) as [j [Hj Hnj]].
  assert (i = j) as ->.
  { eapply NoDup_nth; [apply NoDup_ListNoDup, Hnd| rewrite length_map; done | rewrite length_map; done|].
    rewrite !(map_nth version _ (mkRelease "" "")), Hni, Hnj. reflexivity. }
  by rewrite <- Hni, <- Hnj.
Qed.

Lemma string_app_inv_l (p a b : string) : p ++ a = p ++ b -> a = b.
Proof. induction p as [|c p IH]; simpl; [done|]. intros [= H]. by apply IH. Qed.

Lemma fp_fold_other (l : pydict UbuntuRelease (list Comparison)) (acc : pydict string (list Z)) (k : string) :
  (forall R, R ∈ dict_keys l -> k ≠ ubuntu_prefix ++ version R) ->
  dict_get k (foldl forward_ports_step acc l) = dict_get k acc.
Proof.
  revert acc. induction l as [|[R cs] l IH]; intros acc Hk; simpl; [done|].
  rewrite IH; [|intros R' HR'; apply Hk; simpl; set_solver].
  unfold forward_ports_step. simpl. apply dict_get_set_ne. apply Hk. simpl. set_solver.
Qed.

Lemma fp_fold_values (l : pydict UbuntuRelease (list Comparison)) (acc : pydict string (list Z)) (k : string) nums :
  dict_get k (foldl forward_ports_step acc l) = Some nums ->
  dict_get k acc = Some nums \/ exists R cs, (R, cs) ∈ l /\ k = ubuntu_prefix ++ version R /\ nums = forward_port_numbers cs.
Proof.
  revert acc. induction l as [|[R cs] l IH]; intros acc H; simpl in *; [by left|].
  destruct (IH _ H) as [H1|[R' [cs' [Hin [Hk Hn]]]]].
  - unfold forward_ports_step in H1. simpl in H1. rewrite dict_get_set in H1. destruct (decide (k = _)) as [->|].
    + injection H1 as <-. right. exists R, cs. split; [by left|done].
    + by left.
  - right. exists R', cs'. split; [by right|done].
Qed.

Lemma fp_fold_keys (l : pydict UbuntuRelease (list Comparison)) (acc : pydict string (list Z)) (k : string) :
  is_Some (dict_get k (foldl forward_ports_step acc l)) ↔ is_Some (dict_get k acc) \/ exists R, R ∈ dict_keys l /\ k = ubuntu_prefix ++ version R.
Proof.
  revert acc. induction l as [|[R cs] l IH]; intros acc; simpl.
  - split; [by left|]. intros [?|[R [HR _]]]; [done|by apply not_elem_of_nil in HR].
  - rewrite IH. unfold forward_ports_step. simpl. rewrite dict_get_set. destruct (decide (k = _)) as [->|Hne].
    + split; [intros _; right; exists R; split; [by left|done]|intros _; left; by eexists].
    + split.
      * intros [H|[R' [HR' ->]]]; [by left|right; exists R'; split; [by right|done]].
      * intros [H|[R' [HR' ->]]]; [by left|]. apply elem_of_cons in HR' as [->|HR']; [done|].
        right. by exists R'.
Qed.

Lemma fp_fold_get (l : pydict UbuntuRelease (list Comparison)) (acc : pydict string (list Z)) (R : UbuntuRelease) cs :
  NoDup (map version (dict_keys l)) -> (R, cs) ∈ l ->
  dict_get (ubuntu_prefix ++ version R) (foldl forward_ports_step acc l) = Some (forward_port_numbers cs).
Proof.
  revert acc. induction l as [|[R0 cs0] l IH]; intros acc Hnd Hin; simpl; [by apply not_elem_of_nil in Hin|].
  inversion Hnd as [|? ? Hnot Hnd']; subst.
  apply elem_of_cons in Hin as [[= -> ->]|Hin].
  - rewrite fp_fold_other.
    + unfold forward_ports_step. apply dict_get_set_eq.
    + intros R' HR' Heq. apply string_app_inv_l in Heq. apply Hnot. rewrite Heq.
      apply list_elem_of_In, in_map, list_elem_of_In, HR'.
  - by apply IH.
Qed.

Lemma forward_port_numbers_spec (cs : list Comparison) :
  Sorted Z.le (forward_port_numbers cs) /\
  forall n, n ∈ forward_port_numbers cs ↔ exists c, c ∈ cs /\ missing_slices c = ∅ /\ number (pr_future c) = n.
Proof.
  unfold forward_port_numbers. split; [apply Sorted_merge_sort; apply _|].
  intros n. rewrite (merge_sort_Permutation Z.le). rewrite list_elem_of_In, in_map_iff.
  split.
  - intros [c [Hn Hc]]. apply list_elem_of_In, list_elem_of_filter in Hc as [Hm Hc].
    exists c. split; [done|]. split; done.
  - intros [c [Hc [Hm Hn]]]. exists c. split; [done|]. apply list_elem_of_In, list_elem_of_filter. done.
Qed.

Lemma existsb_forward_port_numbers (cs : list Comparison) :
  existsb is_forward_ported cs = true ↔ forward_port_numbers cs ≠ [].
Proof.
  destruct (forward_port_numbers_spec cs) as [_ Hs]. rewrite existsb_exists. split.
  - intros [c [Hc Hf]] Hnil. unfold is_forward_ported in Hf. apply bool_decide_eq_true in Hf.
    assert (Hn : number (pr_future c) ∈ forward_port_numbers cs) by (apply Hs; exists c; split; [by apply list_elem_of_In|done]).
    rewrite Hnil in Hn. by apply not_elem_of_nil in Hn.
  - destruct (forward_port_numbers cs) as [|n ns] eqn:Hfp; [done|]. intros _.
    destruct (proj1 (Hs n)) as [c [Hc [Hm _]]]; [by left|].
    exists c. split; [by apply list_elem_of_In|]. by apply bool_decide_eq_true.
Qed.

(** X17: In [format_forward_port_json], when the future releases have distinct
    versions, a PR's [forward_ported] field is true exactly when the PR has no
    new slices or every list of its [forward_ports] field is nonempty. *)
Theorem forward_ported_field (ns : pydict PR (gset string)) (pr : PR) (inner : pydict UbuntuRelease (list Comparison)) :
  NoDup (map version (dict_keys inner)) ->
  out_forward_ported (pr_output ns (pr, inner)) = true ↔
    dict_get_default pr ∅ ns = ∅ \/
    forall k nums, dict_get k (out_forward_ports (pr_output ns (pr, inner))) = Some nums -> nums ≠ [].
Proof.
  intros Hnd. simpl. unfold forward_ports. unfold forward_porting_status.
  destruct (decide (dict_get_default pr ∅ ns = ∅)) as [He|Hne]; [split; [by left|done]|].
  rewrite forallb_forall. split.
  - intros Hall. right. intros k nums Hk. destruct (fp_fold_values _ _ _ _ Hk) as [Hnil|[R [cs [Hin [_ ->]]]]]; [discriminate|].
    apply existsb_forward_port_numbers, (Hall (R, cs)), list_elem_of_In, Hin.
  - intros [|Hall]; [done|]. intros [R cs] Hin. apply list_elem_of_In in Hin. simpl.
    apply existsb_forward_port_numbers, (Hall (ubuntu_prefix ++ version R)).
    by apply fp_fold_get.
Qed.

Lemma find_release_spec (v : string) (rels : list UbuntuRelease) (R : UbuntuRelease) :
  find_release v rels = Some R -> R ∈ rels /\ version R = v.
Proof.
  induction rels as [|r rels IH]; simpl; [discriminate|].
  case_bool_decide as Hv; [intros [= <-]; split; [by left|done]|].
  intros H. destruct (IH H). split; [by right|done].
Qed.

Lemma load_fold_get (rels : list UbuntuRelease) (l : list (string * list string))
    (acc : pydict UbuntuRelease (gset string)) (R : UbuntuRelease) s :
  dict_get R (foldl (fun d (kv : string * list string) =>
           match find_release (removeprefix ubuntu_prefix kv.1) rels with
           | Some r => dict_set r (list_to_set kv.2) d
           | None => d
           end) acc l) = Some s ->
  dict_get R acc = Some s \/
  exists key pkgs, (key, pkgs) ∈ l /\ find_release (removeprefix ubuntu_prefix key) rels = Some R /\ s = list_to_set pkgs.
Proof.
  revert acc. induction l as [|[key pkgs] l IH]; intros acc H; simpl in *; [by left|].
  destruct (IH _ H) as [H1|[k' [p' [Hin [Hf Hs]]]]].
  - destruct (find_release (removeprefix ubuntu_prefix key) rels) as [r|] eqn:Hf; [|by left].
    rewrite dict_get_set in H1. destruct (decide (R = r)) as [->|]; [|by left].
    injection H1 as <-. right. exists key, pkgs. split; [by left|done].
  - right. exists k', p'. split; [by right|done].
Qed.

Lemma load_fold_keys (rels : list UbuntuRelease) (l : list (string * list string))
    (acc : pydict UbuntuRelease (gset string)) (R : UbuntuRelease) :
  is_Some (dict_get R (foldl (fun d (kv : string * list string) =>
           match find_release (removeprefix ubuntu_prefix kv.1) rels with
           | Some r => dict_set r (list_to_set kv.2) d
           | None => d
           end) acc l)) ↔
  is_Some (dict_get R acc) \/
  exists key pkgs, (key, pkgs) ∈ l /\ find_release (removeprefix ubuntu_prefix key) rels = Some R.
Proof.
  revert acc. induction l as [|[key pkgs] l IH]; intros acc; simpl.
  - split; [by left|]. intros [?|[k [p [Hin _]]]]; [done|by apply not_elem_of_nil in Hin].
  - rewrite IH. destruct (find_release (removeprefix ubuntu_prefix key) rels) as [r|] eqn:Hf.
    + rewrite dict_get_set. destruct (decide (R = r)) as [->|Hne].
      * split; [intros _; right; exists key, pkgs; split; [by left|done]|intros _; left; by eexists].
      * split.
        -- intros [H|[k [p [Hin HR]]]]; [by left|right; exists k, p; split; [by right|done]].
        -- intros [H|[k [p [Hin HR]]]]; [by left|]. apply elem_of_cons in Hin as [[= -> ->]|Hin]; [congruence|].
           right. exists k, p. split; [done|done].
    + split.
      * intros [H|[k [p [Hin HR]]]]; [by left|right; exists k, p; split; [by right|done]].
      * intros [H|[k [p [Hin HR]]]]; [by left|]. apply elem_of_cons in Hin as [[= -> ->]|Hin]; [congruence|].
        right. exists k, p. split; [done|done].
Qed.

(** ** Witnesses *)

Lemma release_gt_flip_witness :
  version_tuple Scenario.focal = Ok (20, 4)%Z /\ version_tuple Scenario.jammy = Ok (22, 4)%Z /\
  (20, 4)%Z ≠ (22, 4)%Z /\ release_gt Scenario.focal Scenario.jammy = release_lt Scenario.jammy Scenario.focal.
Proof.
  assert (H1 : version_tuple Scenario.focal = Ok (20, 4)%Z) by reflexivity.
  assert (H2 : version_tuple Scenario.jammy = Ok (22, 4)%Z) by reflexivity.
  assert (H3 : (20, 4)%Z ≠ (22, 4)%Z) by (intros [=]).
  split; [exact H1|]. split; [exact H2|]. split; [exact H3|].
  exact (release_gt_flip _ _ _ _ H1 H2 H3).
Defined.

Lemma get_comparisons_exact_witness :
  exists cs, get_comparisons Scenario.table Scenario.by_release Scenario.new_slices1 Scenario.pkgs_focal = Ok cs /\
  forall c, c ∈ cs ↔ exists R s R' s', (R, s) ∈ Scenario.by_release /\ cmp_pr c ∈ s /\
    dict_get R' Scenario.by_release = Some s' /\ pr_future c ∈ s' /\ release_gt R' R = Ok true /\
    c = mkComparison (cmp_pr c) (dict_get_default (cmp_pr c) ∅ Scenario.new_slices1) (pr_future c)
          (dict_get_default (pr_future c) ∅ Scenario.new_slices1)
          (dict_get_default (cmp_pr c) ∅ Scenario.new_slices1 ∖ dict_get_default R' ∅ Scenario.pkgs_focal).
Proof.
  destruct (get_comparisons Scenario.table Scenario.by_release Scenario.new_slices1 Scenario.pkgs_focal)
    as [cs|e] eqn:H; [|vm_compute in H; discriminate].
  exists cs. split; [reflexivity|]. exact (get_comparisons_exact _ _ _ _ _ H).
Defined.

Lemma grouped_comparisons_keys_witness :
  exists g, get_grouped_comparisons Scenario.table Scenario.by_release Scenario.new_slices1 Scenario.pkgs_focal = Ok g /\
  forall pr, pr ∈ dict_keys g ↔ exists R s, (R, s) ∈ Scenario.by_release /\ pr ∈ s.
Proof.
  destruct (get_grouped_comparisons Scenario.table Scenario.by_release Scenario.new_slices1 Scenario.pkgs_focal)
    as [g|e] eqn:H; [|vm_compute in H; discriminate].
  exists g. split; [reflexivity|]. exact (grouped_comparisons_keys _ _ _ _ _ H).
Defined.

Lemma grouped_comparisons_inner_keys_witness :
  exists g, NoDup (dict_keys Scenario.by_release) /\
  (forall R s pr, dict_get R Scenario.by_release = Some s -> pr ∈ s -> pr_ubuntu_release Scenario.table pr = Ok R) /\
  get_grouped_comparisons Scenario.table Scenario.by_release Scenario.new_slices1 Scenario.pkgs_focal = Ok g /\
  forall pr inner, dict_get pr g = Some inner ->
  exists R, pr_ubuntu_release Scenario.table pr = Ok R /\
    forall R', R' ∈ dict_keys inner ↔ R' ∈ dict_keys Scenario.by_release /\ release_gt R' R = Ok true.
Proof.
  assert (Hnd : NoDup (dict_keys Scenario.by_release)) by (apply (bool_decide_unpack _); vm_compute; exact I).
  assert (Hpart : forall R s pr, dict_get R Scenario.by_release = Some s -> pr ∈ s ->
            pr_ubuntu_release Scenario.table pr = Ok R).
  { intros R s pr Hget Hin. simpl in Hget.
    destruct (decide (R = Scenario.focal)) as [->|];
      [injection Hget as <-; apply list_elem_of_singleton in Hin as ->; reflexivity|].
    destruct (decide (R = Scenario.jammy)) as [->|];
      [injection Hget as <-; apply list_elem_of_singleton in Hin as ->; reflexivity|].
    destruct (decide (R = Scenario.noble)) as [->|];
      [injection Hget as <-; apply list_elem_of_singleton in Hin as ->; reflexivity|].
    discriminate. }
  destruct (get_grouped_comparisons Scenario.table Scenario.by_release Scenario.new_slices1 Scenario.pkgs_focal)
    as [g|e] eqn:H; [|vm_compute in H; discriminate].
  exists g. split; [exact Hnd|]. split; [exact Hpart|]. split; [reflexivity|].
  exact (grouped_comparisons_inner_keys _ _ _ _ _ Hnd Hpart H).
Defined.

Lemma newest_release_forward_ported_witness :
  exists out,
    forward_port_verdicts Scenario.table Scenario.releases [Scenario.pr1; Scenario.pr2; Scenario.pr3]
      Scenario.heads Scenario.bases Scenario.pkgs_focal = Ok out /\
    Scenario.pr3 ∈ [Scenario.pr1; Scenario.pr2; Scenario.pr3] /\
    pr_ubuntu_release Scenario.table Scenario.pr3 = Ok Scenario.noble /\ Scenario.noble ∈ Scenario.releases /\
    (forall R', R' ∈ Scenario.releases -> release_gt R' Scenario.noble ≠ Ok true) /\
    (number Scenario.pr3, true) ∈ out.
Proof.
  assert (H2 : Scenario.pr3 ∈ [Scenario.pr1; Scenario.pr2; Scenario.pr3])
    by (apply (bool_decide_unpack _); vm_compute; exact I).
  assert (H3 : pr_ubuntu_release Scenario.table Scenario.pr3 = Ok Scenario.noble) by reflexivity.
  assert (H4 : Scenario.noble ∈ Scenario.releases) by (apply (bool_decide_unpack _); vm_compute; exact I).
  assert (H5 : forall R', R' ∈ Scenario.releases -> release_gt R' Scenario.noble ≠ Ok true).
  { intros R' HR'. unfold Scenario.releases in HR'. rewrite !elem_of_cons, elem_of_nil in HR'.
    destruct HR' as [->|[->|[->|[]]]]; vm_compute; discriminate. }
  destruct (forward_port_verdicts Scenario.table Scenario.releases [Scenario.pr1; Scenario.pr2; Scenario.pr3]
              Scenario.heads Scenario.bases Scenario.pkgs_focal) as [out|e] eqn:H; [|vm_compute in H; discriminate].
  exists out. split; [reflexivity|]. split; [exact H2|]. split; [exact H3|]. split; [exact H4|]. split; [exact H5|].
  exact (newest_release_forward_ported _ _ _ _ _ _ _ _ _ H H2 H3 H4 H5).
Defined.

Lemma forward_port_verdicts_listing_witness :
  exists out,
    forward_port_verdicts Scenario.table Scenario.releases [Scenario.pr1; Scenario.pr2; Scenario.pr3]
      Scenario.heads Scenario.bases Scenario.pkgs_focal = Ok out /\
    Sorted Z.le (map fst out) /\
    forall n, n ∈ map fst out ↔ exists pr, pr ∈ [Scenario.pr1; Scenario.pr2; Scenario.pr3] /\ number pr = n /\
      exists R, pr_ubuntu_release Scenario.table pr = Ok R /\ R ∈ Scenario.releases.
Proof.
  destruct (forward_port_verdicts Scenario.table Scenario.releases [Scenario.pr1; Scenario.pr2; Scenario.pr3]
              Scenario.heads Scenario.bases Scenario.pkgs_focal) as [out|e] eqn:H; [|vm_compute in H; discriminate].
  exists out. split; [reflexivity|]. exact (forward_port_verdicts_listing _ _ _ _ _ _ _ H).
Defined.

Lemma from_distro_info_line_sound_witness :
  from_distro_info_line (Scenario.distro_line "20.04" "Focal Fossa" true) = Ok Scenario.focal /\
  (exists y m : Z, version_tuple Scenario.focal = Ok (y, m) /\ 0 <= y < 100 /\ 0 <= m < 100)%Z /\
  codename Scenario.focal ≠ "" /\ str_forall is_letter_or_space (codename Scenario.focal) = true.
Proof.
  assert (H : from_distro_info_line (Scenario.distro_line "20.04" "Focal Fossa" true) = Ok Scenario.focal)
    by (vm_compute; reflexivity).
  split; [exact H|]. exact (from_distro_info_line_sound _ _ H).
Defined.

Lemma from_distro_info_line_roundtrip_witness :
  1 <= String.length "20" <= 2 /\ String.length "04" = 2 /\ str_forall is_digit "20" = true /\
  str_forall is_digit "04" = true /\ "Focal Fossa" ≠ "" /\ str_forall is_letter_or_space "Focal Fossa" = true /\
  from_distro_info_line ("Ubuntu " ++ "20" ++ "." ++ "04" ++ " LTS" ++
                         String " " (String dquote ("Focal Fossa" ++ String dquote " (2020)"))) =
  Ok (mkRelease ("20" ++ "." ++ "04") "Focal Fossa").
Proof.
  assert (H1 : 1 <= String.length "20" <= 2) by (simpl; lia).
  assert (H2 : String.length "04" = 2) by reflexivity.
  assert (H3 : str_forall is_digit "20" = true) by reflexivity.
  assert (H4 : str_forall is_digit "04" = true) by reflexivity.
  assert (H5 : "Focal Fossa" ≠ "") by discriminate.
  assert (H6 : str_forall is_letter_or_space "Focal Fossa" = true) by reflexivity.
  repeat (split; [assumption|]).
  exact (from_distro_info_line_roundtrip "20" "04" "Focal Fossa" " (2020)" true H1 H2 H3 H4 H5 H6).
Defined.

Lemma branch_release_known_witness :
  exists st', init_distro_info id Scenario.all_output Scenario.supported_output Scenario.devel_output Scenario.st0
                = (st', Ok tt) /\
  from_branch_name (version_to_codename st') "ubuntu-22.04" = Ok Scenario.jammy /\
  Scenario.jammy ∈ all_releases st' /\
  (exists y m : Z, version_tuple Scenario.jammy = Ok (y, m) /\ 0 <= y < 100 /\ 0 <= m < 100)%Z.
Proof.
  destruct (init_distro_info id Scenario.all_output Scenario.supported_output Scenario.devel_output Scenario.st0)
    as [st' [[]|e]] eqn:H; [|vm_compute in H; discriminate].
  assert (Hb : from_branch_name (version_to_codename st') "ubuntu-22.04" = Ok Scenario.jammy).
  { pose proof H as H'. vm_compute in H'. injection H' as <-. vm_compute. reflexivity. }
  exists st'. split; [reflexivity|]. split; [exact Hb|].
  exact (branch_release_known id (fun l => Permutation_refl l) _ _ _ _ _ _ _ H Hb).
Defined.

Lemma branch_name_roundtrip_witness :
  exists st', init_distro_info id Scenario.all_output Scenario.supported_output Scenario.devel_output Scenario.st0
                = (st', Ok tt) /\
  NoDup (map version (all_releases st')) /\ Scenario.jammy ∈ all_releases st' /\
  from_branch_name (version_to_codename st') (ubuntu_prefix ++ version Scenario.jammy) = Ok Scenario.jammy.
Proof.
  destruct (init_distro_info id Scenario.all_output Scenario.supported_output Scenario.devel_output Scenario.st0)
    as [st' [[]|e]] eqn:H; [|vm_compute in H; discriminate].
  assert (Hnd : NoDup (map version (all_releases st')) /\ Scenario.jammy ∈ all_releases st').
  { pose proof H as H'. vm_compute in H'. injection H' as <-.
    split; apply (bool_decide_unpack _); vm_compute; exact I. }
  exists st'. split; [reflexivity|]. split; [exact (proj1 Hnd)|]. split; [exact (proj2 Hnd)|].
  exact (branch_name_roundtrip id (fun l => Permutation_refl l) _ _ _ _ _ _ H (proj1 Hnd) (proj2 Hnd)).
Defined.

Lemma forward_ported_field_witness :
  NoDup (map version (dict_keys Scenario.by_future1)) /\
  (out_forward_ported (pr_output Scenario.new_slices1 (Scenario.pr1, Scenario.by_future1)) = true ↔
     dict_get_default Scenario.pr1 ∅ Scenario.new_slices1 = ∅ \/
     forall k nums, dict_get k (out_forward_ports (pr_output Scenario.new_slices1 (Scenario.pr1, Scenario.by_future1)))
                      = Some nums -> nums ≠ []).
Proof.
  assert (H : NoDup (map version (dict_keys Scenario.by_future1))) by (apply (bool_decide_unpack _); vm_compute; exact I).
  split; [exact H|]. exact (forward_ported_field _ _ _ H).
Defined.
